(** * SMI protocol primitives and bus arbitration (package [smi])

    A shallow embedding of [smi/protocol.go] and [smi/arbitrate.go].

    Bytes ([uint8]) are binary naturals [N]; the payload [Data [8]uint8]
    of a flit is a vector of length 8, so that the constant indices 2 and
    3 used by the arbiter are in range by typing, as they are in Go.  An
    array indexed by a run-time value (the tag tables) is a list with the
    bounds check of the Go runtime written out.

    Goroutines are small-step machines: one program point per statement
    that touches a channel or shared memory, and a [move] says which
    goroutine runs next (and, at a receive on an external channel, what
    the peer hands over).  Theorems quantify over all lists of moves,
    that is over all schedules and all inputs. *)

From Stdlib Require Import NArith List Lia Bool.
From stdpp Require Import base numbers list vector.

Set Default Proof Using "Type".

(** ** protocol.go: constants and the flit type *)

Definition SmiMemWriteReq : N := 0x01.
Definition SmiMemWriteResp : N := 0xFE.
Definition SmiMemReadReq : N := 0x02.
Definition SmiMemReadResp : N := 0xFD.

Definition DefaultOptions : N := 0x00.
Definition MemOptUnbuffered : N := 0x01.

Definition SmiMemBurstSize : N := 256.
Definition SmiMemFrame64Size : N := 2 + SmiMemBurstSize / 8.
Definition SmiMemInFlightLimit : N := 4.

Record Flit64 := mkFlit64 { Data : vec N 8; Eofc : N }.

(** A value the Go type can hold: every byte below 256. *)
Definition uint8_flit (f : Flit64) : bool :=
  forallb (fun b => b <? 256)%N (vec_to_list (Data f)) && (Eofc f <? 256)%N.

(** [Eofc == 0] means more flits follow; a frame is a run of such flits
    closed by exactly one flit with a nonzero completion code. *)
Fixpoint is_frame (fr : list Flit64) : bool :=
  match fr with
  | [] => false
  | f :: fr' =>
      if (Eofc f =? 0)%N then is_frame fr'
      else match fr' with [] => true | _ :: _ => false end
  end.

(** A run of flits none of which closes a frame. *)
Definition more (l : list Flit64) : Prop := Forall (fun f => Eofc f = 0%N) l.

(** ** protocol.go: the frame buffers *)

(** Capacity of [smiBuffer], the literal in [make(chan Flit64, 34)]. *)
Definition smiBufferCap : nat := 34.

Module Assemble.

(** First loop of [AssembleFrame64]: move flits from the input to the
    buffer up to and including the first one with [Eofc != 0].  [None]
    is the goroutine blocked for ever: on [<-smiInput] when the input
    has run dry, on [smiBuffer <- ...] when the buffer is full (nothing
    drains it before this loop ends). *)
Fixpoint fill (smiInput smiBuffer : list Flit64)
  : option (list Flit64 * list Flit64) :=
  match smiInput with
  | [] => None
  | inputFlitData :: smiInput' =>
      if length smiBuffer <? smiBufferCap then
        let smiBuffer' := smiBuffer ++ [inputFlitData] in
        if (Eofc inputFlitData =? 0)%N then fill smiInput' smiBuffer'
        else Some (smiInput', smiBuffer')
      else None
  end.

(** Second loop: move flits from the buffer to the output up to and
    including the first one with [Eofc != 0]. *)
Fixpoint drain (smiBuffer smiOutput : list Flit64)
  : option (list Flit64 * list Flit64) :=
  match smiBuffer with
  | [] => None
  | outputFlitData :: smiBuffer' =>
      let smiOutput' := smiOutput ++ [outputFlitData] in
      if (Eofc outputFlitData =? 0)%N then drain smiBuffer' smiOutput'
      else Some (smiBuffer', smiOutput')
  end.

(** [AssembleFrame64 smiInput] is [Some (out, rest)] when the call
    returns having written [out] and left [rest] unread. *)
Definition AssembleFrame64 (smiInput : list Flit64)
  : option (list Flit64 * list Flit64) :=
  match fill smiInput [] with
  | None => None
  | Some (smiInput', smiBuffer) =>
      match drain smiBuffer [] with
      | None => None
      | Some (_, smiOutput) => Some (smiOutput, smiInput')
      end
  end.

End Assemble.

Module Forward.

(** Program points of the anonymous goroutine (ingress) and of the
    calling goroutine (egress) of [ForwardFrame64]. *)
Inductive ingress_pc :=
| InRecv                                (* inputFlitData := <-smiInput *)
| InPush (inputFlitData : Flit64)       (* smiBuffer <- inputFlitData *)
| InDone.                               (* loop left, goroutine ended *)

Inductive egress_pc :=
| OutPop                                (* outputFlitData := <-smiBuffer *)
| OutSend (outputFlitData : Flit64)     (* smiOutput <- outputFlitData *)
| OutDone.                              (* loop left, function returned *)

Record relay := mkRelay {
  smiInput : list Flit64;     (* flits the producer still has to hand over *)
  smiBuffer : list Flit64;    (* contents of the buffered channel *)
  smiOutput : list Flit64;    (* flits written to the output so far *)
  ingress : ingress_pc;
  egress : egress_pc
}.

Inductive flow := Ingress | Egress.

Definition ingress_step (s : relay) : option relay :=
  match ingress s with
  | InRecv =>
      match smiInput s with
      | [] => None
      | inputFlitData :: smiInput' =>
          Some (mkRelay smiInput' (smiBuffer s) (smiOutput s)
                        (InPush inputFlitData) (egress s))
      end
  | InPush inputFlitData =>
      if length (smiBuffer s) <? smiBufferCap then
        Some (mkRelay (smiInput s) (smiBuffer s ++ [inputFlitData]) (smiOutput s)
                      (if (Eofc inputFlitData =? 0)%N then InRecv else InDone)
                      (egress s))
      else None
  | InDone => None
  end.

Definition egress_step (s : relay) : option relay :=
  match egress s with
  | OutPop =>
      match smiBuffer s with
      | [] => None
      | outputFlitData :: smiBuffer' =>
          Some (mkRelay (smiInput s) smiBuffer' (smiOutput s)
                        (ingress s) (OutSend outputFlitData))
      end
  | OutSend outputFlitData =>
      Some (mkRelay (smiInput s) (smiBuffer s) (smiOutput s ++ [outputFlitData])
                    (ingress s)
                    (if (Eofc outputFlitData =? 0)%N then OutPop else OutDone))
  | OutDone => None
  end.

(** [None]: the chosen goroutine cannot move (blocked or ended). *)
Definition relay_step (s : relay) (m : flow) : option relay :=
  match m with
  | Ingress => ingress_step s
  | Egress => egress_step s
  end.

(** A schedule says which goroutine runs at each step. *)
Fixpoint relay_run (s : relay) (sched : list flow) : option relay :=
  match sched with
  | [] => Some s
  | m :: sched' =>
      match relay_step s m with
      | None => None
      | Some s' => relay_run s' sched'
      end
  end.

(** State on entry to [ForwardFrame64]. *)
Definition relay_start (input : list Flit64) : relay :=
  mkRelay input [] [] InRecv OutPop.

(** The call has returned: the egress loop is left. *)
Definition returned (s : relay) : bool :=
  match egress s with OutDone => true | _ => false end.

(** The flit a goroutine holds in its local variable between its
    receive and its send. *)
Definition in_held (s : relay) : list Flit64 :=
  match ingress s with InPush f => [f] | _ => [] end.
Definition out_held (s : relay) : list Flit64 :=
  match egress s with OutSend f => [f] | _ => [] end.

(** Flits that went through the ingress goroutine, oldest first. *)
Definition passed (s : relay) : list Flit64 :=
  smiOutput s ++ out_held s ++ smiBuffer s.

(** Steps still to go when everything left on the input is relayed. *)
Definition weight (s : relay) : nat :=
  4 * length (smiInput s) + 3 * length (in_held s)
  + 2 * length (smiBuffer s) + length (out_held s).

(** No flit is lost, duplicated or reordered, and each loop is left
    exactly when the flit closing the frame went through it. *)
Record inv (input : list Flit64) (s : relay) : Prop := {
  inv_flits : passed s ++ in_held s ++ smiInput s = input;
  inv_ingress :
    match ingress s with
    | InDone => is_frame (passed s) = true
    | _ => more (passed s)
    end;
  inv_egress :
    match egress s with
    | OutDone => is_frame (smiOutput s) = true
    | _ => more (smiOutput s)
    end
}.

End Forward.


(** ** arbitrate.go: the N-port arbiters *)

Module Arbiter.

(** The upstream ports of an arbiter, named as the channel suffixes of
    the source ([taggedRequestA], [taggedResponseB], ...). *)
Inductive port := PortA | PortB | PortC | PortD.

Global Instance port_eq_dec : EqDecision port.
Proof. solve_decision. Defined.

(** The id handed to [manageUpstreamPort] for each port. *)
Definition port_id (c : port) : N :=
  match c with PortA => 1 | PortB => 2 | PortC => 3 | PortD => 4 end%N.

(** [ArbitrateX2], [ArbitrateX3] and [ArbitrateX4] are the same two
    loops over two, three and four ports; they differ in the channels of
    their [select] and in their two [switch] statements.  An arbiter is
    given by the ports it is wired to, the [switch] of its request
    goroutine (which tagged-request channel is read for a port id, the
    last port being the [default:] branch) and the [switch] of its
    response loop (which tagged-response channel a flit is written to;
    [None] is the [default:] branch that discards). *)
Record arbiter := mkArbiter {
  ports : list port;
  requestSource : N -> port;
  responseTarget : N -> option port
}.

Definition ArbitrateX2 : arbiter :=
  mkArbiter [PortA; PortB]
    (fun portId => match portId with 1 => PortA | _ => PortB end%N)
    (fun portId =>
       match portId with 1 => Some PortA | 2 => Some PortB | _ => None end%N).

Definition ArbitrateX3 : arbiter :=
  mkArbiter [PortA; PortB; PortC]
    (fun portId =>
       match portId with 1 => PortA | 2 => PortB | _ => PortC end%N)
    (fun portId =>
       match portId with
       | 1 => Some PortA | 2 => Some PortB | 3 => Some PortC | _ => None
       end%N).

Definition ArbitrateX4 : arbiter :=
  mkArbiter [PortA; PortB; PortC; PortD]
    (fun portId =>
       match portId with
       | 1 => PortA | 2 => PortB | 3 => PortC | _ => PortD
       end%N)
    (fun portId =>
       match portId with
       | 1 => Some PortA | 2 => Some PortB | 3 => Some PortC
       | 4 => Some PortD | _ => None
       end%N).

Definition arbiters : list arbiter := [ArbitrateX2; ArbitrateX3; ArbitrateX4].

(** *** Request side: the arbitration goroutine *)

Inductive arbitrate_pc :=
| ReqSelect                    (* select { case portId = <-transferReqX } *)
| ReqCopy (portId : N).        (* reqFlit = <-taggedRequestX; downstreamRequest <- reqFlit *)

(** What the peers of the goroutine offer: a port id on the transfer
    request channel of port [c], or a flit on its tagged-request channel. *)
Inductive arbitrate_move :=
| Ready (c : port) (portId : N)
| Deliver (c : port) (reqFlit : Flit64).

(** One statement of the goroutine.  The result is what it writes to
    [downstreamRequest], paired with the port whose channel the flit was
    read from, and the next program point; [None] when the goroutine is
    not receiving on that channel. *)
Definition arbitrate_step (a : arbiter) (pc : arbitrate_pc) (m : arbitrate_move)
  : option (list (port * Flit64) * arbitrate_pc) :=
  match pc, m with
  | ReqSelect, Ready c portId =>
      if decide (c ∈ ports a) then Some ([], ReqCopy portId) else None
  | ReqCopy portId, Deliver c reqFlit =>
      if decide (c = requestSource a portId) then
        Some ([(c, reqFlit)],
              if (Eofc reqFlit =? 0)%N then ReqCopy portId else ReqSelect)
      else None
  | _, _ => None
  end.

Fixpoint arbitrate_run (a : arbiter) (pc : arbitrate_pc) (ms : list arbitrate_move)
  : option (list (port * Flit64) * arbitrate_pc) :=
  match ms with
  | [] => Some ([], pc)
  | m :: ms' =>
      match arbitrate_step a pc m with
      | None => None
      | Some (out, pc') =>
          match arbitrate_run a pc' ms' with
          | None => None
          | Some (out', pc'') => Some (out ++ out', pc'')
          end
      end
  end.

(** Frame atomicity of a stream of flits labelled with their origin:
    [cur] is the origin of the frame under way, [None] between frames. *)
Fixpoint frames_atomic (cur : option port) (out : list (port * Flit64)) : bool :=
  match out with
  | [] => true
  | (c, f) :: out' =>
      match cur with
      | Some c' => bool_decide (c = c')
      | None => true
      end
      && frames_atomic (if (Eofc f =? 0)%N then Some c else None) out'
  end.

(** *** Response side: the steering loop *)

Record steer := mkSteer { portId : N; isHeaderFlit : bool }.

Definition steer_start : steer := mkSteer 0 true.

(** One iteration of the loop on [respFlit := <-downstreamResponse]:
    what is written to which tagged-response channel, and the next state. *)
Definition steer_step (a : arbiter) (s : steer) (respFlit : Flit64)
  : list (port * Flit64) * steer :=
  let portId' := if isHeaderFlit s then Data respFlit !!! 2%fin else portId s in
  (match responseTarget a portId' with
   | Some c => [(c, respFlit)]
   | None => []
   end,
   mkSteer portId' (negb (Eofc respFlit =? 0)%N)).

Fixpoint steer_run (a : arbiter) (s : steer) (downstreamResponse : list Flit64)
  : list (port * Flit64) * steer :=
  match downstreamResponse with
  | [] => ([], s)
  | respFlit :: rest =>
      let '(out, s') := steer_step a s respFlit in
      let '(out', s'') := steer_run a s' rest in
      (out ++ out', s'')
  end.

(** The flits written to the tagged-response channel of port [c]. *)
Definition delivered (c : port) (out : list (port * Flit64)) : list Flit64 :=
  (filter (fun x => x.1 = c) out).*2.

(** The port id a response frame carries in its header. *)
Definition header_port (fr : list Flit64) : N :=
  match fr with
  | [] => 0%N
  | h :: _ => Data h !!! 2%fin
  end.

(** The two switches of an arbiter agree with the ids of its ports. *)
Definition wired (a : arbiter) : Prop :=
  (forall c, c ∈ ports a -> requestSource a (port_id c) = c) /\
  (forall k c, responseTarget a k = Some c <-> c ∈ ports a /\ k = port_id c).

(** The frame under way, if any, comes from the channel the arbitration
    goroutine is reading. *)
Definition reading (a : arbiter) (pc : arbitrate_pc) (cur : option port) : Prop :=
  match cur with
  | None => True
  | Some c => exists portId, pc = ReqCopy portId /\ c = requestSource a portId
  end.

(** Where the flits of a frame go, given the port id of its header. *)
Definition routed (a : arbiter) (k : N) (fr : list Flit64) : list (port * Flit64) :=
  match responseTarget a k with
  | Some c => (fun f => (c, f)) <$> fr
  | None => []
  end.

End Arbiter.


(** ** arbitrate.go: [manageUpstreamPort] *)

Module PortManager.

(** Program points of the tag-replacement goroutine (requests). *)
Inductive request_pc :=
| RqRecvHeader                                     (* headerFlit := <-upstreamRequest *)
| RqLeaseTag (headerFlit : Flit64)                 (* tagId := <-tagFifo *)
| RqSaveLower (headerFlit : Flit64) (tagId : N)    (* tagTableLower[tagId] = headerFlit.Data[2] *)
| RqSaveUpper (headerFlit : Flit64) (tagId : N)    (* tagTableUpper[tagId] = headerFlit.Data[3] *)
| RqSignal (headerFlit : Flit64)                   (* transferReq <- portId *)
| RqSendHeader (headerFlit : Flit64)               (* taggedRequest <- headerFlit *)
| RqRecvBody                                       (* bodyFlit := <-upstreamRequest *)
| RqSendBody (bodyFlit : Flit64).                  (* taggedRequest <- bodyFlit *)

(** Program points of the calling goroutine (responses). *)
Inductive response_pc :=
| RsRecvHeader                                     (* headerFlit := <-taggedResponse *)
| RsLoadLower (headerFlit : Flit64) (tagId : N)    (* headerFlit.Data[2] = tagTableLower[tagId] *)
| RsLoadUpper (headerFlit : Flit64) (tagId : N)    (* headerFlit.Data[3] = tagTableUpper[tagId] *)
| RsReleaseTag (headerFlit : Flit64) (tagId : N)   (* tagFifo <- tagId *)
| RsSendHeader (headerFlit : Flit64)               (* upstreamResponse <- headerFlit *)
| RsRecvBody                                       (* bodyFlit := <-taggedResponse *)
| RsSendBody (bodyFlit : Flit64).                  (* upstreamResponse <- bodyFlit *)

Record state := mkState {
  tagTableLower : list N;
  tagTableUpper : list N;
  tagFifo : list N;
  reqFlow : request_pc;
  respFlow : response_pc
}.

(** Capacity of [tagFifo], the literal in [make(chan uint8, 4)]. *)
Definition tagFifoCap : nat := 4.

(** [for tagInit := uint8(0); tagInit != 4; tagInit++ { tagFifo <- tagInit }];
    a [uint8] counter takes at most 256 values before it repeats. *)
Fixpoint tagInitLoop (fuel : nat) (tagInit : N) (fifo : list N) : option (list N) :=
  match fuel with
  | O => None
  | S fuel' =>
      if (tagInit =? 4)%N then Some fifo
      else if length fifo <? tagFifoCap then
        tagInitLoop fuel' ((tagInit + 1) mod 256)%N (fifo ++ [tagInit])
      else None
  end.

(** State when both flows start: zeroed tables, the pool as the
    initialisation loop leaves it. *)
Definition start : state :=
  mkState (replicate 4 0%N) (replicate 4 0%N)
          (default [] (tagInitLoop 257 0%N []))
          RqRecvHeader RsRecvHeader.

(** What an execution does, in order: channel operations of the two
    flows, external and on the tag pool. *)
Inductive event :=
| UpstreamRequestIn (f : Flit64)
| TagLeased (tagId : N)
| TransferReqOut (portId : N)
| TaggedRequestOut (f : Flit64)
| TaggedResponseIn (f : Flit64)
| TagReleased (tagId : N)
| UpstreamResponseOut (f : Flit64).

Inductive result :=
| Next (evs : list event) (s : state)
| Blocked      (* the flow cannot move now *)
| Panic.       (* index out of range *)

Definition set_req (s : state) (pc : request_pc) : state :=
  mkState (tagTableLower s) (tagTableUpper s) (tagFifo s) pc (respFlow s).

Definition set_resp (s : state) (pc : response_pc) : state :=
  mkState (tagTableLower s) (tagTableUpper s) (tagFifo s) (reqFlow s) pc.

(** After the last flit of a frame the flow is back at its header read. *)
Definition req_next (f : Flit64) : request_pc :=
  if (Eofc f =? 0)%N then RqRecvBody else RqRecvHeader.

Definition resp_next (f : Flit64) : response_pc :=
  if (Eofc f =? 0)%N then RsRecvBody else RsRecvHeader.

(** [headerFlit.Data[2] = a; headerFlit.Data[3] = b] *)
Definition set_data2 (f : Flit64) (a : N) : Flit64 :=
  mkFlit64 (vinsert 2%fin a (Data f)) (Eofc f).
Definition set_data3 (f : Flit64) (b : N) : Flit64 :=
  mkFlit64 (vinsert 3%fin b (Data f)) (Eofc f).

(** One statement of the request flow; [input] is the flit the upstream
    producer hands over when the statement is a receive.  The local
    assignments [headerFlit.Data[2] = portId] and [headerFlit.Data[3] =
    tagId] run with the write to [tagTableUpper] before them.  A send is
    one step; whether and when the peer takes it is up to the schedule,
    which may stop anywhere. *)
Definition request_step (portId : N) (s : state) (input : option Flit64) : result :=
  match reqFlow s, input with
  | RqRecvHeader, Some headerFlit =>
      Next [UpstreamRequestIn headerFlit] (set_req s (RqLeaseTag headerFlit))
  | RqLeaseTag headerFlit, None =>
      match tagFifo s with
      | [] => Blocked
      | tagId :: fifo' =>
          Next [TagLeased tagId]
               (mkState (tagTableLower s) (tagTableUpper s) fifo'
                        (RqSaveLower headerFlit tagId) (respFlow s))
      end
  | RqSaveLower headerFlit tagId, None =>
      if N.to_nat tagId <? length (tagTableLower s) then
        Next []
             (mkState (<[N.to_nat tagId := Data headerFlit !!! 2%fin]> (tagTableLower s))
                      (tagTableUpper s) (tagFifo s)
                      (RqSaveUpper headerFlit tagId) (respFlow s))
      else Panic
  | RqSaveUpper headerFlit tagId, None =>
      if N.to_nat tagId <? length (tagTableUpper s) then
        Next []
             (mkState (tagTableLower s)
                      (<[N.to_nat tagId := Data headerFlit !!! 3%fin]> (tagTableUpper s))
                      (tagFifo s)
                      (RqSignal (set_data3 (set_data2 headerFlit portId) tagId))
                      (respFlow s))
      else Panic
  | RqSignal headerFlit, None =>
      Next [TransferReqOut portId] (set_req s (RqSendHeader headerFlit))
  | RqSendHeader headerFlit, None =>
      Next [TaggedRequestOut headerFlit] (set_req s (req_next headerFlit))
  | RqRecvBody, Some bodyFlit =>
      Next [UpstreamRequestIn bodyFlit] (set_req s (RqSendBody bodyFlit))
  | RqSendBody bodyFlit, None =>
      Next [TaggedRequestOut bodyFlit] (set_req s (req_next bodyFlit))
  | _, _ => Blocked
  end.

(** One statement of the response flow; [input] is the flit the arbiter
    hands over when the statement is a receive, and [tagId :=
    headerFlit.Data[3]] runs with the receive of the header.  The release
    waits while the pool holds [tagFifoCap] tags. *)
Definition response_step (s : state) (input : option Flit64) : result :=
  match respFlow s, input with
  | RsRecvHeader, Some headerFlit =>
      Next [TaggedResponseIn headerFlit]
           (set_resp s (RsLoadLower headerFlit (Data headerFlit !!! 3%fin)))
  | RsLoadLower headerFlit tagId, None =>
      match tagTableLower s !! N.to_nat tagId with
      | None => Panic
      | Some a => Next [] (set_resp s (RsLoadUpper (set_data2 headerFlit a) tagId))
      end
  | RsLoadUpper headerFlit tagId, None =>
      match tagTableUpper s !! N.to_nat tagId with
      | None => Panic
      | Some b => Next [] (set_resp s (RsReleaseTag (set_data3 headerFlit b) tagId))
      end
  | RsReleaseTag headerFlit tagId, None =>
      if length (tagFifo s) <? tagFifoCap then
        Next [TagReleased tagId]
             (mkState (tagTableLower s) (tagTableUpper s) (tagFifo s ++ [tagId])
                      (reqFlow s) (RsSendHeader headerFlit))
      else Blocked
  | RsSendHeader headerFlit, None =>
      Next [UpstreamResponseOut headerFlit] (set_resp s (resp_next headerFlit))
  | RsRecvBody, Some bodyFlit =>
      Next [TaggedResponseIn bodyFlit] (set_resp s (RsSendBody bodyFlit))
  | RsSendBody bodyFlit, None =>
      Next [UpstreamResponseOut bodyFlit] (set_resp s (resp_next bodyFlit))
  | _, _ => Blocked
  end.

Inductive move :=
| ReqStep                 (* the request flow runs its next statement *)
| ReqRecv (f : Flit64)    (* its receive on upstreamRequest gets f *)
| RespStep                (* the response flow runs its next statement *)
| RespRecv (f : Flit64).  (* its receive on taggedResponse gets f *)

Definition step (portId : N) (s : state) (m : move) : result :=
  match m with
  | ReqStep => request_step portId s None
  | ReqRecv f => request_step portId s (Some f)
  | RespStep => response_step s None
  | RespRecv f => response_step s (Some f)
  end.

(** How a list of moves ends: in a state, at a move that was not
    possible, or in a run-time panic. *)
Inductive ending :=
| Running (s : state)
| Refused
| Panicked.

(** The events of the moves in order, up to the end. *)
Fixpoint run (portId : N) (s : state) (ms : list move) : list event * ending :=
  match ms with
  | [] => ([], Running s)
  | m :: ms' =>
      match step portId s m with
      | Next evs s' =>
          let '(tr, e) := run portId s' ms' in (evs ++ tr, e)
      | Blocked => ([], Refused)
      | Panic => ([], Panicked)
      end
  end.

(** *** Reading a trace *)

Definition upstream_requests (tr : list event) : list Flit64 :=
  omap (fun e => match e with UpstreamRequestIn f => Some f | _ => None end) tr.
Definition tagged_requests (tr : list event) : list Flit64 :=
  omap (fun e => match e with TaggedRequestOut f => Some f | _ => None end) tr.
Definition tagged_responses (tr : list event) : list Flit64 :=
  omap (fun e => match e with TaggedResponseIn f => Some f | _ => None end) tr.
Definition upstream_responses (tr : list event) : list Flit64 :=
  omap (fun e => match e with UpstreamResponseOut f => Some f | _ => None end) tr.
Definition leases (tr : list event) : list N :=
  omap (fun e => match e with TagLeased t => Some t | _ => None end) tr.

(** The flits of a stream that start a frame; [isHeader] says whether
    the first one does. *)
Fixpoint frame_heads (isHeader : bool) (fs : list Flit64) : list Flit64 :=
  match fs with
  | [] => []
  | f :: fs' =>
      (if isHeader then [f] else []) ++ frame_heads (negb (Eofc f =? 0)%N) fs'
  end.

(** The tagged-request stream that a stream of upstream requests should
    give when the frames get the tags [tags] in turn: headers carry the
    port id at offset 2 and their tag at offset 3, the rest is as read. *)
Fixpoint tagged_stream (portId : N) (isHeader : bool) (tags : list N)
    (fs : list Flit64) : list Flit64 :=
  match fs with
  | [] => []
  | f :: fs' =>
      if isHeader then
        match tags with
        | [] => []
        | t :: tags' =>
            set_data3 (set_data2 f portId) t
              :: tagged_stream portId (negb (Eofc f =? 0)%N) tags' fs'
        end
      else f :: tagged_stream portId (negb (Eofc f =? 0)%N) tags fs'
  end.

(** Remove the first occurrence of a tag. *)
Fixpoint remove_tag (t : N) (l : list N) : list N :=
  match l with
  | [] => []
  | x :: l' => if decide (x = t) then l' else x :: remove_tag t l'
  end.

(** Tags leased and not yet released, the latest first. *)
Definition leased_step (l : list N) (e : event) : list N :=
  match e with
  | TagLeased t => t :: l
  | TagReleased t => remove_tag t l
  | _ => l
  end.
Definition leased (tr : list event) : list N := fold_left leased_step tr [].

(** Take the oldest entry for tag [t] out of the requests in flight. *)
Fixpoint take_tag (t : N) (l : list (N * Flit64))
  : option (Flit64 * list (N * Flit64)) :=
  match l with
  | [] => None
  | (t', o) :: l' =>
      if decide (t' = t) then Some (o, l')
      else match take_tag t l' with
           | None => None
           | Some (o', l'') => Some (o', (t', o) :: l'')
           end
  end.

(** An observer of the four external channels of a port manager.  It
    follows frame boundaries by [Eofc] on each channel and pairs requests
    with responses by the tag at offset 3 of the tagged headers. *)
Record observer := mkObserver {
  upReqHeader : bool;               (* the next flit on upstreamRequest starts a frame *)
  lastRequest : option Flit64;      (* header of the latest frame read from upstreamRequest *)
  tagReqHeader : bool;              (* the next flit on taggedRequest starts a frame *)
  inFlight : list (N * Flit64);     (* tag and original header of the requests sent on
                                       taggedRequest and not yet answered *)
  tagRespHeader : bool;             (* the next flit on taggedResponse starts a frame *)
  answering : option Flit64;        (* original header of the request whose response
                                       is passing *)
  upRespHeader : bool;              (* the next flit on upstreamResponse starts a frame *)
  roundTrips : list (option Flit64 * Flit64);
                                    (* response headers delivered upstream, each with
                                       the original header of its request *)
  conformant : bool                 (* every response header so far carried the tag of
                                       a request in flight *)
}.

Definition observe_start : observer :=
  mkObserver true None true [] true None true [] true.

Definition observe_step (o : observer) (e : event) : observer :=
  let '(mkObserver uqh last tqh fl tph ans uph rts ok) := o in
  match e with
  | UpstreamRequestIn f =>
      mkObserver (negb (Eofc f =? 0)%N) (if uqh then Some f else last)
                 tqh fl tph ans uph rts ok
  | TaggedRequestOut f =>
      mkObserver uqh last (negb (Eofc f =? 0)%N)
                 (if tqh then
                    match last with
                    | Some orig => fl ++ [(Data f !!! 3%fin, orig)]
                    | None => fl
                    end
                  else fl)
                 tph ans uph rts ok
  | TaggedResponseIn f =>
      if tph then
        match take_tag (Data f !!! 3%fin) fl with
        | Some (orig, fl') =>
            mkObserver uqh last tqh fl' (negb (Eofc f =? 0)%N) (Some orig) uph rts ok
        | None =>
            mkObserver uqh last tqh fl (negb (Eofc f =? 0)%N) None uph rts false
        end
      else mkObserver uqh last tqh fl (negb (Eofc f =? 0)%N) ans uph rts ok
  | UpstreamResponseOut f =>
      mkObserver uqh last tqh fl tph ans (negb (Eofc f =? 0)%N)
                 (if uph then rts ++ [(ans, f)] else rts) ok
  | TagLeased _ | TagReleased _ | TransferReqOut _ => o
  end.

Definition observe (tr : list event) : observer :=
  fold_left observe_step tr observe_start.

(** A delivered response header restores its request: bytes 2 and 3 are
    those of the original request header. *)
Definition restored (rt : option Flit64 * Flit64) : Prop :=
  match rt.1 with
  | None => False
  | Some orig =>
      Data rt.2 !!! 2%fin = Data orig !!! 2%fin /\
      Data rt.2 !!! 3%fin = Data orig !!! 3%fin
  end.


(** The events of a list of moves from the start, and how it ends. *)
Definition trace (portId : N) (ms : list move) : list event :=
  (run portId start ms).1.
Definition final (portId : N) (ms : list move) : ending :=
  (run portId start ms).2.

(** *** Invariants *)

(** The tag a flow holds in a local variable. *)
Definition req_held (pc : request_pc) : list N :=
  match pc with
  | RqSaveLower _ t | RqSaveUpper _ t => [t]
  | RqSignal h | RqSendHeader h => [Data h !!! 3%fin]
  | _ => []
  end.

Definition resp_held (pc : response_pc) : list N :=
  match pc with
  | RsLoadLower _ t | RsLoadUpper _ t | RsReleaseTag _ t => [t]
  | _ => []
  end.

(** The tables hold bytes 2 and 3 of [orig] in the slot of tag [t]. *)
Definition saved (lower upper : list N) (t : N) (orig : Flit64) : Prop :=
  lower !! N.to_nat t = Some (Data orig !!! 2%fin) /\
  upper !! N.to_nat t = Some (Data orig !!! 3%fin).

Definition req_linked (lower upper : list N) (pc : request_pc) (o : observer) : Prop :=
  match pc with
  | RqRecvHeader => upReqHeader o = true /\ tagReqHeader o = true
  | RqLeaseTag h | RqSaveLower h _ =>
      lastRequest o = Some h /\ upReqHeader o = negb (Eofc h =? 0)%N /\
      tagReqHeader o = true
  | RqSaveUpper h t =>
      lastRequest o = Some h /\ upReqHeader o = negb (Eofc h =? 0)%N /\
      tagReqHeader o = true /\
      lower !! N.to_nat t = Some (Data h !!! 2%fin)
  | RqSignal h | RqSendHeader h =>
      exists orig, lastRequest o = Some orig /\
        upReqHeader o = negb (Eofc h =? 0)%N /\ tagReqHeader o = true /\
        saved lower upper (Data h !!! 3%fin) orig
  | RqRecvBody => upReqHeader o = false /\ tagReqHeader o = false
  | RqSendBody b =>
      upReqHeader o = negb (Eofc b =? 0)%N /\ tagReqHeader o = false
  end.

Definition resp_linked (lower upper : list N) (pc : response_pc) (o : observer) : Prop :=
  match pc with
  | RsRecvHeader => tagRespHeader o = true /\ upRespHeader o = true
  | RsLoadLower h t =>
      exists orig, answering o = Some orig /\ saved lower upper t orig /\
        tagRespHeader o = negb (Eofc h =? 0)%N /\ upRespHeader o = true
  | RsLoadUpper h t =>
      exists orig, answering o = Some orig /\
        Data h !!! 2%fin = Data orig !!! 2%fin /\
        upper !! N.to_nat t = Some (Data orig !!! 3%fin) /\
        tagRespHeader o = negb (Eofc h =? 0)%N /\ upRespHeader o = true
  | RsReleaseTag h _ | RsSendHeader h =>
      exists orig, answering o = Some orig /\
        Data h !!! 2%fin = Data orig !!! 2%fin /\
        Data h !!! 3%fin = Data orig !!! 3%fin /\
        tagRespHeader o = negb (Eofc h =? 0)%N /\ upRespHeader o = true
  | RsRecvBody => tagRespHeader o = false /\ upRespHeader o = false
  | RsSendBody b =>
      tagRespHeader o = negb (Eofc b =? 0)%N /\ upRespHeader o = false
  end.

(** The state of a port manager, what an observer of its channels has
    seen and the tags on lease fit together. *)
Record linked (s : state) (o : observer) (lz : list N) : Prop := {
  ln_pool :
    tagFifo s ++ req_held (reqFlow s) ++ (inFlight o).*1 ++ resp_held (respFlow s)
      ≡ₚ [0; 1; 2; 3]%N;
  ln_leased :
    lz ≡ₚ req_held (reqFlow s) ++ (inFlight o).*1 ++ resp_held (respFlow s);
  ln_lower : length (tagTableLower s) = 4;
  ln_upper : length (tagTableUpper s) = 4;
  ln_saved :
    forall t orig, (t, orig) ∈ inFlight o ->
      saved (tagTableLower s) (tagTableUpper s) t orig;
  ln_req : req_linked (tagTableLower s) (tagTableUpper s) (reqFlow s) o;
  ln_resp : resp_linked (tagTableLower s) (tagTableUpper s) (respFlow s) o;
  ln_trips : Forall restored (roundTrips o)
}.

(** Every tag the flows may use as an index is below the table size. *)
Record indexable (s : state) : Prop := {
  ix_fifo : Forall (fun t => (t < 4)%N) (tagFifo s);
  ix_req : Forall (fun t => (t < 4)%N) (req_held (reqFlow s));
  ix_resp : Forall (fun t => (t < 4)%N) (resp_held (respFlow s));
  ix_lower : length (tagTableLower s) = 4;
  ix_upper : length (tagTableUpper s) = 4
}.

(** Whether the next flit the response flow receives starts a frame. *)
Definition resp_header_next (pc : response_pc) : bool :=
  match pc with
  | RsRecvHeader => true
  | RsRecvBody => false
  | RsLoadLower f _ | RsLoadUpper f _ | RsReleaseTag f _
  | RsSendHeader f | RsSendBody f => negb (Eofc f =? 0)%N
  end.

Definition tag_in_range (h : Flit64) : bool := (Data h !!! 3%fin <? 4)%N.

(** What the request flow still has to send, given the tags it will
    lease and the flits it will read from now on. *)
Definition expect (p : N) (pc : request_pc) (tags : list N) (ins : list Flit64)
  : list Flit64 :=
  match pc with
  | RqRecvHeader => tagged_stream p true tags ins
  | RqLeaseTag h => tagged_stream p true tags (h :: ins)
  | RqSaveLower h t | RqSaveUpper h t => tagged_stream p true (t :: tags) (h :: ins)
  | RqSignal h | RqSendHeader h =>
      h :: tagged_stream p (negb (Eofc h =? 0)%N) tags ins
  | RqRecvBody => tagged_stream p false tags ins
  | RqSendBody b => b :: tagged_stream p (negb (Eofc b =? 0)%N) tags ins
  end.

End PortManager.


(** ** Sample streams *)

Module Sample.

Definition flit (b0 b1 b2 b3 : N) (eofc : N) : Flit64 :=
  mkFlit64 [# b0; b1; b2; b3; 0; 0; 0; 0]%N eofc.

(** Two frames of one flit each. *)
Definition first : Flit64 := flit 1 0 0 0 8.
Definition second : Flit64 := flit 2 0 0 0 8.

(** A frame of three flits followed by the start of another one. *)
Definition burst : list Flit64 := [flit 2 0 7 9 0; flit 10 11 12 13 0; flit 20 21 22 23 4].
Definition trailer : list Flit64 := [flit 1 0 5 6 0].

(** Arbitration: port B sends two flits, then port A one. *)
Definition arbitration : list Arbiter.arbitrate_move :=
  [Arbiter.Ready Arbiter.PortB 2; Arbiter.Deliver Arbiter.PortB (flit 2 0 2 0 0);
   Arbiter.Deliver Arbiter.PortB (flit 30 31 32 33 8);
   Arbiter.Ready Arbiter.PortA 1; Arbiter.Deliver Arbiter.PortA (flit 1 0 1 3 8)].

Definition arbitrated : list (Arbiter.port * Flit64) :=
  [(Arbiter.PortB, flit 2 0 2 0 0); (Arbiter.PortB, flit 30 31 32 33 8);
   (Arbiter.PortA, flit 1 0 1 3 8)].

(** Response frames for ports 3, 1, 3 and 4; the bodies carry bytes that
    look like other port ids. *)
Definition responses : list (list Flit64) :=
  [[flit 253 0 3 0 0; flit 9 9 1 9 8];
   [flit 254 0 1 2 8];
   [flit 253 0 3 1 0; flit 9 9 4 9 0; flit 9 9 2 9 8];
   [flit 254 0 4 0 8]].

(** A response frame for port id 0 and one for port id 9. *)
Definition unrouted : list Flit64 := [flit 253 0 0 1 0; flit 9 9 1 9 8].
Definition misrouted : list Flit64 := [flit 253 0 9 1 0; flit 9 9 2 9 8].

(** A request of one flit going all the way to the tagged-request
    channel, and a response of one flit going all the way upstream. *)
Definition request (f : Flit64) : list PortManager.move :=
  [PortManager.ReqRecv f; PortManager.ReqStep; PortManager.ReqStep;
   PortManager.ReqStep; PortManager.ReqStep; PortManager.ReqStep].
Definition response (f : Flit64) : list PortManager.move :=
  [PortManager.RespRecv f; PortManager.RespStep; PortManager.RespStep;
   PortManager.RespStep; PortManager.RespStep].

(** Four requests of port 1 in flight at once, answered out of order. *)
Definition four_in_flight : list PortManager.move :=
  request (flit 2 0 160 176 8) ++ request (flit 2 0 161 177 8) ++
  request (flit 1 0 162 178 8) ++ request (flit 1 0 163 179 8) ++
  response (flit 253 0 1 2 8) ++ response (flit 253 0 1 0 8) ++
  response (flit 254 0 1 3 8) ++ response (flit 254 0 1 1 8).

(** Four requests of port 1 sent and not answered, and the header of a
    fifth one read. *)
Definition fifth_request : list PortManager.move :=
  request (flit 2 0 160 176 8) ++ request (flit 2 0 161 177 8) ++
  request (flit 1 0 162 178 8) ++ request (flit 1 0 163 179 8) ++
  [PortManager.ReqRecv (flit 1 0 164 180 8)].

(** A response header whose tag byte is 4: no such tag exists. *)
Definition stray : Flit64 := flit 253 0 1 4 8.
Definition stray_response : list PortManager.move :=
  [PortManager.RespRecv stray; PortManager.RespStep].

(** A response whose tag is in range but was never issued, after one
    request with a body. *)
Definition unasked : list PortManager.move :=
  [PortManager.ReqRecv (flit 1 0 7 7 0); PortManager.ReqStep; PortManager.ReqStep;
   PortManager.ReqStep; PortManager.ReqStep; PortManager.ReqStep;
   PortManager.ReqRecv (flit 5 5 5 5 8); PortManager.ReqStep]
  ++ response (flit 254 0 1 3 8).

(** Four requests of port 1 sent, the one with tag 2 answered, a fifth
    request sent with the tag that came back, and the header of a sixth
    one read. *)
Definition recycled : list PortManager.move :=
  request (flit 2 0 160 176 8) ++ request (flit 2 0 161 177 8) ++
  request (flit 1 0 162 178 8) ++ request (flit 1 0 163 179 8) ++
  response (flit 253 0 1 2 8) ++ request (flit 1 0 164 180 8) ++
  [PortManager.ReqRecv (flit 1 0 165 181 8)].

(** [unasked], whose response answers no request, followed by four more
    requests of one flit: five requests sent, none of them answered. *)
Definition overdrawn : list PortManager.move :=
  unasked ++ request (flit 1 0 161 177 8) ++ request (flit 1 0 162 178 8) ++
  request (flit 1 0 163 179 8) ++ request (flit 1 0 164 180 8).

End Sample.

(** ** Further sample streams *)

Module Sample2.

(** A frame of 35 flits, one more than the frame buffers hold. *)
Definition long_frame : list Flit64 :=
  replicate 34 (Sample.flit 7 7 7 7 0) ++ [Sample.flit 8 8 8 8 1].

(** Flits none of which closes a frame. *)
Definition open_frame : list Flit64 :=
  [Sample.flit 1 0 0 0 0; Sample.flit 2 0 0 0 0].

(** The first two flits of a response frame for port 1. *)
Definition partial : list Flit64 :=
  [Sample.flit 253 0 1 3 0; Sample.flit 9 9 9 9 0].

(** Four requests of port 1 in flight and the response to the third
    received, its tag looked up and not yet released. *)
Definition answering : list PortManager.move :=
  Sample.request (Sample.flit 2 0 160 176 8) ++
  Sample.request (Sample.flit 2 0 161 177 8) ++
  Sample.request (Sample.flit 1 0 162 178 8) ++
  Sample.request (Sample.flit 1 0 163 179 8) ++
  [PortManager.RespRecv (Sample.flit 253 0 1 2 8);
   PortManager.RespStep; PortManager.RespStep].

End Sample2.

(** ** Reading the moves of the arbitration goroutine *)

Module ArbiterMore.
Import Arbiter.

(** The flits the tagged-request channels hand over, with their port. *)
Definition offered (ms : list arbitrate_move) : list (port * Flit64) :=
  omap (fun m => match m with Deliver c f => Some (c, f) | _ => None end) ms.

(** The transfer requests the [select] receives. *)
Definition selections (ms : list arbitrate_move) : list (port * N) :=
  omap (fun m => match m with Ready c k => Some (c, k) | _ => None end) ms.

(** Whether the flit after the stream [fs] starts a frame, [b] saying so
    for its first flit. *)
Fixpoint end_flag (b : bool) (fs : list Flit64) : bool :=
  match fs with
  | [] => b
  | f :: fs' => end_flag (negb (Eofc f =? 0)%N) fs'
  end.

(** A transfer request taken for which no flit has been copied yet. *)
Definition pending (pc : arbitrate_pc) (b : bool) : nat :=
  match pc with
  | ReqCopy _ => if b then 1 else 0
  | ReqSelect => 0
  end.

End ArbiterMore.

(** ** Reading more of a port manager's trace *)

Module PortManagerMore.
Import PortManager.

Definition releases (tr : list event) : list N :=
  omap (fun e => match e with TagReleased t => Some t | _ => None end) tr.
Definition transfers (tr : list event) : list N :=
  omap (fun e => match e with TransferReqOut k => Some k | _ => None end) tr.

(** A flit with bytes 2 and 3 blanked, and a stream with the headers of
    its frames blanked so: what is left is everything the tag replacement
    must not touch. *)
Definition blank23 (f : Flit64) : Flit64 := set_data3 (set_data2 f 0) 0.

Fixpoint blank_heads (isHeader : bool) (fs : list Flit64) : list Flit64 :=
  match fs with
  | [] => []
  | f :: fs' =>
      (if isHeader then blank23 f else f)
        :: blank_heads (negb (Eofc f =? 0)%N) fs'
  end.

(** Whether the next flit a flow sends starts a frame. *)
Definition req_out_header (pc : request_pc) : bool :=
  match pc with
  | RqRecvBody | RqSendBody _ => false
  | _ => true
  end.
Definition resp_out_header (pc : response_pc) : bool :=
  match pc with
  | RsRecvBody | RsSendBody _ => false
  | _ => true
  end.

(** What the response flow still has to send, blanked, given the flits
    it will receive from now on. *)
Definition resp_expect (pc : response_pc) (ins : list Flit64) : list Flit64 :=
  match pc with
  | RsRecvHeader => blank_heads true ins
  | RsLoadLower h _ | RsLoadUpper h _ | RsReleaseTag h _ | RsSendHeader h =>
      blank23 h :: blank_heads (negb (Eofc h =? 0)%N) ins
  | RsRecvBody => blank_heads false ins
  | RsSendBody b => b :: blank_heads (negb (Eofc b =? 0)%N) ins
  end.

(** Counters of what a flow has begun and not finished: a tag leased for
    a header not yet sent, a transfer request sent for a header not yet
    sent, a response header received whose tag is not yet released. *)
Definition req_leased (pc : request_pc) : nat :=
  match pc with
  | RqSaveLower _ _ | RqSaveUpper _ _ | RqSignal _ | RqSendHeader _ => 1
  | _ => 0
  end.
Definition req_signalled (pc : request_pc) : nat :=
  match pc with
  | RqSendHeader _ => 1
  | _ => 0
  end.
Definition resp_unreleased (pc : response_pc) : nat :=
  match pc with
  | RsLoadLower _ _ | RsLoadUpper _ _ | RsReleaseTag _ _ => 1
  | _ => 0
  end.

End PortManagerMore.

(** ** arbitrate.go: an arbiter as wired

    [ArbitrateX2], [ArbitrateX3] and [ArbitrateX4] start one
    [manageUpstreamPort] per port, with the ids 1, 2, ..., and join each
    to their two loops by three channels of capacity 1: the port's
    transfer requests and tagged requests, read by the arbitration
    goroutine, and its tagged responses, written by the steering loop.
    The upstream channels of the ports and the two downstream channels
    are the outside. *)

Module Wiring.
Import Arbiter PortManager PortManagerMore.

(** Capacity of the channels inside an arbiter, the literal in
    [make(chan Flit64, 1)] and [make(chan uint8, 1)]. *)
Definition linkCap : nat := 1.

Record system := mkSystem {
  managers : port -> state;               (* the port managers *)
  transferReq : port -> list N;           (* contents of transferReqX *)
  taggedRequest : port -> list Flit64;    (* contents of taggedRequestX *)
  taggedResponse : port -> list Flit64;   (* contents of taggedResponseX *)
  arbitration : arbitrate_pc;             (* the arbitration goroutine *)
  steering : steer;                       (* the steering loop *)
  held : option (port * Flit64)           (* the flit it is about to write, and where *)
}.

Definition put {A} (c : port) (v : A) (g : port -> A) : port -> A :=
  fun c' => if decide (c' = c) then v else g c'.

(** State when the goroutines have been started. *)
Definition boot : system :=
  mkSystem (fun _ => start) (fun _ => []) (fun _ => []) (fun _ => [])
           ReqSelect steer_start None.

(** What a step of the arbiter consists of: a move of a port manager, a
    move of the arbitration goroutine, the steering loop reading a flit
    from [downstreamResponse], or writing it to a tagged-response
    channel. *)
Inductive action :=
| Managed (c : port) (m : move)
| Arbitrated (m : arbitrate_move)
| Steered (f : Flit64)
| Passed (c : port) (f : Flit64).

Inductive outcome :=
| Go (acts : list action) (s : system)
| Stuck      (* the goroutine cannot move now *)
| Fault.     (* a port manager panics, and with it the program *)

(** A move of the manager of port [c].  What it sends on its transfer
    request and tagged-request channels goes into these channels, if they
    have room; otherwise the send blocks.  [resp] is what the move leaves
    in the port's tagged-response channel. *)
Definition manage (a : arbiter) (s : system) (c : port) (m : move)
    (resp : list Flit64) : outcome :=
  if decide (c ∈ ports a) then
    match step (port_id c) (managers s c) m with
    | Next evs st =>
        let tq := transferReq s c ++ transfers evs in
        let gq := taggedRequest s c ++ tagged_requests evs in
        if (length tq <=? linkCap) && (length gq <=? linkCap) then
          Go [Managed c m]
             (mkSystem (put c st (managers s)) (put c tq (transferReq s))
                       (put c gq (taggedRequest s)) (put c resp (taggedResponse s))
                       (arbitration s) (steering s) (held s))
        else Stuck
    | Blocked => Stuck
    | Panic => Fault
    end
  else Stuck.

(** Which goroutine runs, and what the outside hands over. *)
Inductive turn :=
| Upstream (c : port) (f : Flit64)   (* the request flow of port c receives f from upstream *)
| ManagerReq (c : port)              (* the request flow of port c runs a statement *)
| ManagerTake (c : port)             (* the response flow of port c receives from taggedResponse *)
| ManagerResp (c : port)             (* the response flow of port c runs a statement *)
| Arbitrate (c : port)               (* the arbitration goroutine receives from a channel of port c *)
| Downstream (f : Flit64)            (* the steering loop receives f from downstream *)
| Steer.                             (* the steering loop writes the flit it holds *)

Definition sys_step (a : arbiter) (s : system) (t : turn) : outcome :=
  match t with
  | Upstream c f => manage a s c (ReqRecv f) (taggedResponse s c)
  | ManagerReq c => manage a s c ReqStep (taggedResponse s c)
  | ManagerResp c => manage a s c RespStep (taggedResponse s c)
  | ManagerTake c =>
      match taggedResponse s c with
      | [] => Stuck
      | f :: rest => manage a s c (RespRecv f) rest
      end
  | Arbitrate c =>
      match arbitration s with
      | ReqSelect =>
          match transferReq s c with
          | [] => Stuck
          | k :: rest =>
              match arbitrate_step a ReqSelect (Ready c k) with
              | Some (_, pc) =>
                  Go [Arbitrated (Ready c k)]
                     (mkSystem (managers s) (put c rest (transferReq s))
                               (taggedRequest s) (taggedResponse s)
                               pc (steering s) (held s))
              | None => Stuck
              end
          end
      | ReqCopy k =>
          match taggedRequest s c with
          | [] => Stuck
          | f :: rest =>
              match arbitrate_step a (ReqCopy k) (Deliver c f) with
              | Some (_, pc) =>
                  Go [Arbitrated (Deliver c f)]
                     (mkSystem (managers s) (transferReq s)
                               (put c rest (taggedRequest s)) (taggedResponse s)
                               pc (steering s) (held s))
              | None => Stuck
              end
          end
      end
  | Downstream f =>
      match held s with
      | Some _ => Stuck
      | None =>
          Go [Steered f]
             (mkSystem (managers s) (transferReq s) (taggedRequest s)
                       (taggedResponse s) (arbitration s)
                       (steer_step a (steering s) f).2
                       (head (steer_step a (steering s) f).1))
      end
  | Steer =>
      match held s with
      | None => Stuck
      | Some (c, f) =>
          if length (taggedResponse s c) <? linkCap then
            Go [Passed c f]
               (mkSystem (managers s) (transferReq s) (taggedRequest s)
                         (put c (taggedResponse s c ++ [f]) (taggedResponse s))
                         (arbitration s) (steering s) None)
          else Stuck
      end
  end.

(** How a list of turns ends: in a state, at a turn that was not
    possible, or with the program down. *)
Inductive sys_ending :=
| Working (s : system)
| Halted
| Crashed.

Fixpoint sys_run (a : arbiter) (s : system) (ts : list turn)
  : list action * sys_ending :=
  match ts with
  | [] => ([], Working s)
  | t :: ts' =>
      match sys_step a s t with
      | Go acts s' =>
          let '(log, e) := sys_run a s' ts' in (acts ++ log, e)
      | Stuck => ([], Halted)
      | Fault => ([], Crashed)
      end
  end.

(** *** Reading the log *)

(** The moves of the manager of port [c], of the arbitration goroutine,
    and the flits the steering loop read. *)
Definition manager_moves (c : port) (log : list action) : list move :=
  omap (fun x => match x with
                 | Managed c' m => if decide (c' = c) then Some m else None
                 | _ => None
                 end) log.
Definition arbiter_moves (log : list action) : list arbitrate_move :=
  omap (fun x => match x with Arbitrated m => Some m | _ => None end) log.
Definition steer_inputs (log : list action) : list Flit64 :=
  omap (fun x => match x with Steered f => Some f | _ => None end) log.

(** The flits written to [downstreamRequest], with the port they were
    read from; the flits read from [downstreamResponse]; the flits the
    upstream producer of port [c] handed over, and the flits written to
    its upstream response channel. *)
Definition downstream_requests (log : list action) : list (port * Flit64) :=
  ArbiterMore.offered (arbiter_moves log).
Definition downstream_responses (log : list action) : list Flit64 :=
  steer_inputs log.
Definition manager_trace (c : port) (log : list action) : list event :=
  (run (port_id c) start (manager_moves c log)).1.
Definition upstream_in (c : port) (log : list action) : list Flit64 :=
  upstream_requests (manager_trace c log).
Definition upstream_out (c : port) (log : list action) : list Flit64 :=
  upstream_responses (manager_trace c log).

(** What the outside hands over in a list of turns: the flits for
    [downstreamResponse], and those for the upstream request channel of
    port [c]. *)
Definition downstream_fed (ts : list turn) : list Flit64 :=
  omap (fun t => match t with Downstream f => Some f | _ => None end) ts.
Definition upstream_fed (c : port) (ts : list turn) : list Flit64 :=
  omap (fun t => match t with
                 | Upstream c' f => if decide (c' = c) then Some f else None
                 | _ => None
                 end) ts.

(** The flits a list of moves hands to the request flow of a manager. *)
Definition received (ms : list move) : list Flit64 :=
  omap (fun m => match m with ReqRecv f => Some f | _ => None end) ms.

(** Whether the next flit the steering loop writes to port [c] starts a
    frame: it is at a header, or in a frame that goes elsewhere. *)
Definition steer_header (a : arbiter) (c : port) (s : steer) : bool :=
  isHeaderFlit s || negb (bool_decide (responseTarget a (portId s) = Some c)).

(** *** How the parts fit *)

(** The flits the steering loop wrote to the tagged-response channel of
    port [c]; the transfer requests the [select] took from the channel of
    port [c]; the flit the steering loop holds for port [c]. *)
Definition passed (c : port) (log : list action) : list Flit64 :=
  omap (fun x => match x with
                 | Passed c' f => if decide (c' = c) then Some f else None
                 | _ => None
                 end) log.
Definition selected (c : port) (ms : list arbitrate_move) : list N :=
  omap (fun m => match m with
                 | Ready c' k => if decide (c' = c) then Some k else None
                 | _ => None
                 end) ms.
Definition held_for (c : port) (s : system) : list Flit64 :=
  match held s with
  | Some (c', f) => if decide (c' = c) then [f] else []
  | None => []
  end.

(** From the state [s0] the log [log] leads to the state [s]: the
    manager of port [c] has made its moves, and each channel holds what
    was written to it and not yet read. *)
Definition port_joined (a : arbiter) (s0 s : system) (log : list action)
    (c : port) : Prop :=
  (run (port_id c) (managers s0 c) (manager_moves c log)).2
    = Running (managers s c) /\
  transferReq s0 c
    ++ transfers (run (port_id c) (managers s0 c) (manager_moves c log)).1
    = selected c (arbiter_moves log) ++ transferReq s c /\
  taggedRequest s0 c
    ++ tagged_requests (run (port_id c) (managers s0 c) (manager_moves c log)).1
    = delivered c (ArbiterMore.offered (arbiter_moves log)) ++ taggedRequest s c /\
  taggedResponse s0 c ++ passed c log
    = tagged_responses (run (port_id c) (managers s0 c) (manager_moves c log)).1
      ++ taggedResponse s c /\
  held_for c s0 ++ delivered c (steer_run a (steering s0) (steer_inputs log)).1
    = passed c log ++ held_for c s.

Definition loops_joined (a : arbiter) (s0 s : system) (log : list action) : Prop :=
  arbitrate_run a (arbitration s0) (arbiter_moves log)
    = Some (ArbiterMore.offered (arbiter_moves log), arbitration s) /\
  (steer_run a (steering s0) (steer_inputs log)).2 = steering s.

Definition sys_log (a : arbiter) (ts : list turn) : list action :=
  (sys_run a boot ts).1.
Definition sys_final (a : arbiter) (ts : list turn) : sys_ending :=
  (sys_run a boot ts).2.

End Wiring.

(** ** Sample executions of an arbiter *)

Module Sample3.
Import Arbiter Wiring.

(** A request of one flit from upstream to the tagged-request channel of
    port [c]; its way from there downstream; a response of one flit from
    downstream to the upstream response channel of port [c]. *)
Definition ask (c : port) (f : Flit64) : list turn :=
  [Upstream c f; ManagerReq c; ManagerReq c; ManagerReq c; ManagerReq c;
   ManagerReq c].
Definition grant (c : port) : list turn := [Arbitrate c; Arbitrate c].
Definition answer (c : port) (f : Flit64) : list turn :=
  [Downstream f; Steer; ManagerTake c; ManagerResp c; ManagerResp c;
   ManagerResp c; ManagerResp c].

(** Ports A and B of [ArbitrateX2] each send a frame of one flit; B is
    served first; the responses come back in the other order. *)
Definition back_to_back : list turn :=
  ask PortA (Sample.flit 1 0 170 171 8) ++ ask PortB (Sample.flit 2 0 180 181 8) ++
  grant PortB ++ grant PortA ++
  answer PortA (Sample.flit 254 0 1 0 8) ++ answer PortB (Sample.flit 253 0 2 0 8).

(** A response frame for port 1 whose tag byte is 4. *)
Definition poisoned : list turn :=
  [Downstream Sample.stray; Steer; ManagerTake PortA; ManagerResp PortA].

End Sample3.


(** * Proofs *)

(** ** Frames *)

Lemma is_frame_cons_more f l :
  Eofc f = 0%N -> is_frame (f :: l) = is_frame l.
Proof. intros H. simpl. by rewrite H. Qed.

Lemma is_frame_cons_last f l :
  Eofc f <> 0%N -> is_frame (f :: l) = true -> l = [].
Proof.
  intros H. simpl. destruct (N.eqb_spec (Eofc f) 0); [done|].
  by destruct l.
Qed.

Lemma is_frame_snoc l f :
  more l -> Eofc f <> 0%N -> is_frame (l ++ [f]) = true.
Proof.
  intros Hl Hf. induction Hl as [|g l Hg _ IH]; simpl.
  - by destruct (N.eqb_spec (Eofc f) 0).
  - by rewrite Hg.
Qed.

Lemma is_frame_not_more l : is_frame l = true -> more l -> False.
Proof.
  induction l as [|f l IH]; [done|].
  intros Hfr Hm. apply Forall_cons in Hm as [Hf Hm].
  rewrite is_frame_cons_more in Hfr; auto.
Qed.

(** A stream starts with at most one frame. *)
Lemma is_frame_unique a b x y :
  is_frame a = true -> is_frame b = true -> a ++ x = b ++ y -> a = b /\ x = y.
Proof.
  revert b. induction a as [|f a IH]; [done|].
  intros [|g b]; [done|]. intros Ha Hb Heq. injection Heq as -> Heq.
  simpl in Ha, Hb. destruct (N.eqb_spec (Eofc g) 0) as [Hg|Hg].
  - by destruct (IH b Ha Hb Heq) as [-> ->].
  - destruct a, b; simplify_eq/=; done.
Qed.

(** A run of flits that all announce more is a proper prefix of the frame. *)
Lemma more_prefix_frame a b x y :
  more a -> is_frame b = true -> a ++ x = b ++ y ->
  exists c, b = a ++ c /\ is_frame c = true /\ x = c ++ y.
Proof.
  intros Ha. revert b. induction Ha as [|f a Hf _ IH]; intros b Hb Heq.
  - exists b. done.
  - destruct b as [|g b]; [done|]. injection Heq as <- Heq.
    simpl in Hb. rewrite Hf in Hb. destruct (IH b Hb Heq) as (c & -> & Hc & ->).
    by exists c.
Qed.

Lemma is_frame_app_nil a b :
  is_frame a = true -> is_frame (a ++ b) = true -> b = [].
Proof.
  intros Ha Hab.
  destruct (is_frame_unique a (a ++ b) b [] Ha Hab) as [_ ->]; [|done].
  by rewrite <-app_assoc, app_nil_r.
Qed.

(** ** AssembleFrame64 *)

Module AssembleFacts.
Import Assemble.

Lemma fill_frame fr rest buf :
  is_frame fr = true -> length buf + length fr <= smiBufferCap ->
  fill (fr ++ rest) buf = Some (rest, buf ++ fr).
Proof.
  revert buf. induction fr as [|f fr IH]; [done|]. intros buf Hfr Hlen.
  simpl in Hlen. cbn [app fill].
  destruct (Nat.ltb_spec (length buf) smiBufferCap); [|lia].
  destruct (N.eqb_spec (Eofc f) 0) as [Hf|Hf].
  - rewrite is_frame_cons_more in Hfr by done.
    rewrite IH; [|done|rewrite length_app; simpl; lia].
    by rewrite <-app_assoc.
  - by rewrite (is_frame_cons_last f fr Hf Hfr).
Qed.

Lemma drain_frame fr rest out :
  is_frame fr = true ->
  drain (fr ++ rest) out = Some (rest, out ++ fr).
Proof.
  revert out. induction fr as [|f fr IH]; [done|]. intros out Hfr.
  cbn [app drain].
  destruct (N.eqb_spec (Eofc f) 0) as [Hf|Hf].
  - rewrite is_frame_cons_more in Hfr by done.
    rewrite IH by done. by rewrite <-app_assoc.
  - by rewrite (is_frame_cons_last f fr Hf Hfr).
Qed.

(** What the two loops yield whenever they end. *)
Lemma fill_Some input buf rest buf' :
  fill input buf = Some (rest, buf') ->
  exists fr, is_frame fr = true /\ input = fr ++ rest /\ buf' = buf ++ fr.
Proof.
  revert buf. induction input as [|f input IH]; [done|]. intros buf.
  cbn [fill]. case_match; [|done].
  destruct (N.eqb_spec (Eofc f) 0) as [Hf|Hf].
  - intros (fr & Hfr & -> & ->)%IH. exists (f :: fr).
    rewrite is_frame_cons_more by done. by rewrite <-app_assoc.
  - intros [= -> <-]. exists [f]. split; [|done].
    simpl. by destruct (N.eqb_spec (Eofc f) 0).
Qed.

Lemma drain_Some buf out rest out' :
  drain buf out = Some (rest, out') ->
  exists fr, is_frame fr = true /\ buf = fr ++ rest /\ out' = out ++ fr.
Proof.
  revert out. induction buf as [|f buf IH]; [done|]. intros out.
  cbn [drain].
  destruct (N.eqb_spec (Eofc f) 0) as [Hf|Hf].
  - intros (fr & Hfr & -> & ->)%IH. exists (f :: fr).
    rewrite is_frame_cons_more by done. by rewrite <-app_assoc.
  - intros [= -> <-]. exists [f]. split; [|done].
    simpl. by destruct (N.eqb_spec (Eofc f) 0).
Qed.

Lemma AssembleFrame64_frame fr rest :
  is_frame fr = true -> length fr <= smiBufferCap ->
  AssembleFrame64 (fr ++ rest) = Some (fr, rest).
Proof.
  intros Hfr Hlen. unfold AssembleFrame64.
  rewrite fill_frame by done. simpl.
  rewrite <-(app_nil_r fr) at 1. by rewrite drain_frame.
Qed.

Lemma AssembleFrame64_Some input out rest :
  AssembleFrame64 input = Some (out, rest) ->
  is_frame out = true /\ input = out ++ rest.
Proof.
  unfold AssembleFrame64.
  destruct (fill input []) as [[input' buf]|] eqn:Hfill; [|done].
  destruct (drain buf []) as [[buf' out']|] eqn:Hdrain; [|done].
  intros [= <- <-].
  apply fill_Some in Hfill as (fr & Hfr & -> & ->).
  apply drain_Some in Hdrain as (fr' & Hfr' & Heq & ->). simpl in *.
  destruct (is_frame_unique fr fr' [] buf') as [-> _]; try done.
  by rewrite app_nil_r.
Qed.

(** A frame longer than the buffer never gets out of the first loop. *)
Lemma fill_overflow fr rest buf :
  is_frame fr = true -> smiBufferCap < length buf + length fr ->
  fill (fr ++ rest) buf = None.
Proof.
  revert buf. induction fr as [|f fr IH]; [done|]. intros buf Hfr Hlen.
  simpl in Hlen. cbn [app fill].
  destruct (Nat.ltb_spec (length buf) smiBufferCap); [|done].
  destruct (N.eqb_spec (Eofc f) 0) as [Hf|Hf].
  - rewrite is_frame_cons_more in Hfr by done.
    apply IH; [done|]. rewrite length_app. simpl. lia.
  - rewrite (is_frame_cons_last f fr Hf Hfr) in Hlen. simpl in Hlen. lia.
Qed.

End AssembleFacts.

(** ** ForwardFrame64 *)

Module ForwardFacts.
Import Forward.

Lemma inv_start input : inv input (relay_start input).
Proof. split; simpl; try done; by constructor. Qed.

Lemma more_snoc l f : more l -> Eofc f = 0%N -> more (l ++ [f]).
Proof. intros. apply Forall_app. split; [done|]. by constructor. Qed.

Lemma step_inv input s m s' :
  inv input s -> relay_step s m = Some s' -> inv input s'.
Proof.
  intros [Hfl Hin Hout]. destruct s as [inp buf out ipc epc].
  unfold passed, in_held, out_held in *. simpl in *.
  destruct m; simpl; unfold ingress_step, egress_step; simpl.
  - destruct ipc as [|f|]; [| |done].
    + destruct inp as [|f inp]; [done|]. intros [= <-].
      split; unfold passed, in_held, out_held; simpl; done.
    + destruct (length buf <? smiBufferCap); [|done]. intros [= <-].
      split; unfold passed, in_held, out_held; simpl.
      * rewrite <-Hfl. destruct (Eofc f =? 0)%N; by rewrite <-!app_assoc.
      * rewrite !app_assoc. rewrite !app_assoc in Hin.
        destruct (N.eqb_spec (Eofc f) 0).
        -- by apply more_snoc.
        -- by apply is_frame_snoc.
      * done.
  - destruct epc as [|f|]; [| |done].
    + destruct buf as [|f buf]; [done|]. intros [= <-].
      split; unfold passed, in_held, out_held; simpl; done.
    + intros [= <-].
      split; unfold passed, in_held, out_held; simpl in *.
      * rewrite <-Hfl.
        destruct (Eofc f =? 0)%N; by rewrite <-!app_assoc.
      * replace (match (if (Eofc f =? 0)%N then OutPop else OutDone) with
                 | OutSend f0 => [f0] | _ => [] end) with (@nil Flit64)
          by (by destruct (Eofc f =? 0)%N).
        by rewrite <-app_assoc.
      * destruct (N.eqb_spec (Eofc f) 0).
        -- by apply more_snoc.
        -- by apply is_frame_snoc.
Qed.

Lemma step_weight s m s' : relay_step s m = Some s' -> weight s = S (weight s').
Proof.
  destruct s as [inp buf out ipc epc].
  destruct m; simpl; unfold ingress_step, egress_step, weight, in_held, out_held;
    simpl.
  - destruct ipc as [|f|]; [| |done].
    + destruct inp as [|f inp]; [done|]. intros [= <-]. simpl. lia.
    + destruct (length buf <? smiBufferCap); [|done]. intros [= <-]. simpl. rewrite length_app. simpl.
      destruct (Eofc f =? 0)%N; simpl; lia.
  - destruct epc as [|f|]; [| |done].
    + destruct buf as [|f buf]; [done|]. intros [= <-]. simpl. lia.
    + intros [= <-]. simpl. destruct (Eofc f =? 0)%N; simpl; lia.
Qed.

Lemma run_inv input s sched s' :
  inv input s -> relay_run s sched = Some s' -> inv input s'.
Proof.
  revert s. induction sched as [|m sched IH]; simpl; intros s Hs.
  - by intros [= <-].
  - destruct (relay_step s m) as [s1|] eqn:Hstep; [|done].
    apply IH. by eapply step_inv.
Qed.

Lemma run_weight s sched s' :
  relay_run s sched = Some s' -> weight s = length sched + weight s'.
Proof.
  revert s. induction sched as [|m sched IH]; simpl; intros s.
  - by intros [= <-].
  - destruct (relay_step s m) as [s1|] eqn:Hstep; [|done].
    intros Hrun%IH. apply step_weight in Hstep. lia.
Qed.

(** Once the call has returned the frame is out, the buffer is empty and
    the ingress goroutine is over. *)
Lemma inv_returned input s :
  inv input s -> returned s = true ->
  is_frame (smiOutput s) = true /\ input = smiOutput s ++ smiInput s /\
  smiBuffer s = [] /\ ingress s = InDone.
Proof.
  intros [Hfl Hin Hout] Hret. destruct s as [inp buf out ipc epc].
  unfold passed, in_held, out_held, returned in *. simpl in *.
  destruct epc; try done. simpl in *.
  assert (ipc = InDone) as ->.
  { destruct ipc; try done;
      apply Forall_app in Hin as [Hin _]; by destruct (is_frame_not_more out). }
  apply is_frame_app_nil in Hin as ->; [|done].
  by rewrite app_nil_r in Hfl.
Qed.

Lemma returned_final s input :
  inv input s -> returned s = true -> forall m, relay_step s m = None.
Proof.
  intros Hs Hret. destruct (inv_returned _ _ Hs Hret) as (_ & _ & _ & Hin).
  unfold returned in Hret. intros [|]; simpl; unfold ingress_step, egress_step.
  - by rewrite Hin.
  - by destruct (egress s).
Qed.

Section OneFrame.
Variables (fr rest : list Flit64).
Hypothesis Hfr : is_frame fr = true.

(** While the frame is on its way, what is left to read holds the rest
    of the stream. *)
Lemma inv_input_rest s :
  inv (fr ++ rest) s -> length rest <= length (smiInput s).
Proof using Hfr.
  intros [Hfl Hin Hout]. destruct s as [inp buf out ipc epc].
  unfold in_held in *. simpl in *. destruct ipc as [|f|]; simpl in *.
  - destruct (more_prefix_frame _ _ _ _ Hin Hfr Hfl) as (c & _ & _ & ->).
    rewrite length_app. lia.
  - destruct (more_prefix_frame _ _ _ _ Hin Hfr Hfl) as (c & _ & Hc & Heq).
    destruct c as [|g c]; [done|]. injection Heq as _ ->.
    rewrite length_app. lia.
  - by destruct (is_frame_unique _ _ _ _ Hin Hfr Hfl) as [_ ->].
Qed.

Lemma inv_progress s :
  inv (fr ++ rest) s -> returned s = false -> exists m s', relay_step s m = Some s'.
Proof using Hfr.
  intros [Hfl Hin Hout] Hret. destruct s as [inp buf out ipc epc].
  unfold passed, in_held, out_held, returned in *. simpl in *.
  destruct epc as [|f|]; [| |done].
  - destruct buf as [|f buf].
    + destruct ipc as [|f|].
      * destruct inp as [|f inp]; [|by exists Ingress; eexists].
        simpl in *. rewrite !app_nil_r in Hfl. subst out.
        apply Forall_app in Hout as [Hout _].
        by destruct (is_frame_not_more fr).
      * exists Ingress. by eexists.
      * simpl in *. rewrite app_nil_r in Hin.
        by destruct (is_frame_not_more out).
    + exists Egress. by eexists.
  - exists Egress. by eexists.
Qed.

Lemma inv_output_prefix s :
  inv (fr ++ rest) s -> smiOutput s `prefix_of` fr.
Proof using Hfr.
  intros Hs. destruct (returned s) eqn:Hret.
  - destruct (inv_returned _ _ Hs Hret) as (Hout & Heq & _).
    symmetry in Heq. by destruct (is_frame_unique _ _ _ _ Hout Hfr Heq) as [-> _].
  - destruct Hs as [Hfl _ Hout]. unfold returned in Hret.
    assert (more (smiOutput s)) as Hm by (by destruct (egress s)).
    unfold passed in Hfl. rewrite <-!app_assoc in Hfl.
    destruct (more_prefix_frame _ _ _ _ Hm Hfr Hfl) as (c & -> & _).
    by exists c.
Qed.

Lemma run_complete n s :
  inv (fr ++ rest) s -> weight s = n + 4 * length rest ->
  exists sched s', relay_run s sched = Some s' /\ returned s' = true.
Proof using Hfr.
  revert s. induction n as [|n IH]; intros s Hs Hw.
  - destruct (returned s) eqn:Hret; [by exists [], s|].
    destruct (inv_progress s Hs Hret) as (m & s' & Hstep).
    pose proof (step_weight _ _ _ Hstep).
    pose proof (inv_input_rest s' (step_inv _ _ _ _ Hs Hstep)).
    unfold weight in *. lia.
  - destruct (returned s) eqn:Hret; [by exists [], s|].
    destruct (inv_progress s Hs Hret) as (m & s1 & Hstep).
    destruct (IH s1) as (sched & s' & Hrun & Hret').
    + by eapply step_inv.
    + apply step_weight in Hstep. lia.
    + exists (m :: sched), s'. simpl. by rewrite Hstep.
Qed.

End OneFrame.

End ForwardFacts.

(** ** The arbiters *)

Module ArbiterFacts.
Import Arbiter.

Ltac case_port_id k :=
  destruct k as [|k]; [|do 3 (try destruct k as [k|k|])].

Ltac case_ports :=
  repeat match goal with
         | H : _ \/ _ |- _ => destruct H
         | H : False |- _ => destruct H
         end;
  try discriminate; try reflexivity.

Lemma wired_arbiters a : a ∈ arbiters -> wired a.
Proof.
  unfold arbiters. rewrite !elem_of_cons, elem_of_nil.
  intros [->|[->|[->|[]]]]; (split; [intros c | intros k c]); simpl;
    rewrite ?elem_of_cons, ?elem_of_nil.
  all: try (intros Hc; destruct c; simpl; case_ports).
  all: split;
    [ case_port_id k; simpl; intros [= <-];
      (split; [repeat first [by left | right] | reflexivity])
    | intros [Hc ->]; destruct c; simpl; case_ports ].
Qed.

(** *** Request side *)

Lemma arbitrate_run_atomic a ms pc cur out pc' :
  reading a pc cur ->
  arbitrate_run a pc ms = Some (out, pc') ->
  frames_atomic cur out = true.
Proof.
  revert pc cur out. induction ms as [|m ms IH]; intros pc cur out Hrd; simpl.
  - by intros [= <- <-].
  - destruct (arbitrate_step a pc m) as [[o1 pc1]|] eqn:Hstep; [|done].
    destruct (arbitrate_run a pc1 ms) as [[o2 pc2]|] eqn:Hrun; [|done].
    intros [= <- <-].
    destruct pc as [|p], m as [c k|c f]; simpl in Hstep; try done.
    + destruct (decide (c ∈ ports a)); [|done]. injection Hstep as <- <-.
      simpl. destruct cur as [c'|]; [by destruct Hrd as (? & ? & _)|].
      by apply (IH (ReqCopy k) None o2 I Hrun).
    + destruct (decide (c = requestSource a p)) as [->|]; [|done].
      injection Hstep as <- <-. simpl.
      apply andb_true_iff. split.
      * destruct cur as [c'|]; [|done]. destruct Hrd as (p' & [= <-] & ->).
        by apply bool_decide_eq_true.
      * eapply IH; [|done]. destruct (Eofc f =? 0)%N; [|done]. by exists p.
Qed.

(** *** Response side *)

Lemma steer_run_app a s l1 l2 :
  steer_run a s (l1 ++ l2) =
  ((steer_run a s l1).1 ++ (steer_run a (steer_run a s l1).2 l2).1,
   (steer_run a (steer_run a s l1).2 l2).2).
Proof.
  revert s. induction l1 as [|f l1 IH]; intros s; cbn [app steer_run fst snd].
  - by destruct (steer_run a s l2).
  - destruct (steer_step a s f) as [o1 s1]. rewrite IH.
    destruct (steer_run a s1 l1) as [o2 s2]. cbn [fst snd].
    destruct (steer_run a s2 l2) as [o3 s3]. cbn [fst snd].
    by rewrite app_assoc.
Qed.

Lemma steer_run_body a fr k :
  is_frame fr = true ->
  steer_run a (mkSteer k false) fr = (routed a k fr, mkSteer k true).
Proof.
  induction fr as [|f fr IH]; [done|]. intros Hfr.
  cbn [steer_run]. unfold steer_step. cbn [isHeaderFlit portId].
  destruct (N.eqb_spec (Eofc f) 0) as [Hf|Hf].
  - rewrite is_frame_cons_more in Hfr by done. cbn [negb]. rewrite IH by done.
    unfold routed. by destruct (responseTarget a k).
  - rewrite (is_frame_cons_last f fr Hf Hfr). unfold routed.
    by destruct (responseTarget a k).
Qed.

Lemma steer_run_frame a fr s :
  is_frame fr = true -> isHeaderFlit s = true ->
  steer_run a s fr = (routed a (header_port fr) fr, mkSteer (header_port fr) true).
Proof.
  destruct fr as [|f fr]; [done|]. intros Hfr Hs.
  cbn [steer_run header_port]. unfold steer_step. rewrite Hs.
  destruct (N.eqb_spec (Eofc f) 0) as [Hf|Hf].
  - rewrite is_frame_cons_more in Hfr by done.
    cbn [negb]. rewrite steer_run_body by done.
    unfold routed. by destruct (responseTarget a _).
  - rewrite (is_frame_cons_last f fr Hf Hfr). unfold routed.
    by destruct (responseTarget a _).
Qed.

Lemma steer_run_frames a frames s :
  forallb is_frame frames = true -> isHeaderFlit s = true ->
  (steer_run a s (concat frames)).1
    = concat ((fun fr => routed a (header_port fr) fr) <$> frames) /\
  isHeaderFlit (steer_run a s (concat frames)).2 = true.
Proof.
  revert s. induction frames as [|fr frames IH]; intros s Hfrs Hs; [done|].
  simpl in Hfrs. apply andb_true_iff in Hfrs as [Hfr Hfrs].
  cbn [concat fmap list_fmap]. rewrite steer_run_app.
  rewrite steer_run_frame by done. cbn [fst snd].
  destruct (IH (mkSteer (header_port fr) true) Hfrs eq_refl) as [-> ->].
  done.
Qed.

(** At a frame boundary the remembered port id no longer matters. *)
Lemma steer_run_header a s s' l :
  isHeaderFlit s = true -> isHeaderFlit s' = true ->
  (steer_run a s l).1 = (steer_run a s' l).1.
Proof.
  intros Hs Hs'. destruct l as [|f l]; [done|].
  cbn [steer_run]. unfold steer_step. by rewrite Hs, Hs'.
Qed.

Lemma delivered_app c o1 o2 :
  delivered c (o1 ++ o2) = delivered c o1 ++ delivered c o2.
Proof. unfold delivered. by rewrite filter_app, fmap_app. Qed.

Lemma delivered_routed a c k fr :
  wired a ->
  delivered c (routed a k fr)
    = if bool_decide (c ∈ ports a /\ k = port_id c) then fr else [].
Proof.
  intros [_ Hw]. unfold routed, delivered.
  destruct (responseTarget a k) as [c'|] eqn:Hk.
  - apply Hw in Hk as [Hc' ->].
    destruct (decide (c' = c)) as [->|Hne].
    + rewrite bool_decide_eq_true_2 by done.
      induction fr as [|f fr IH]; [done|].
      cbn [fmap list_fmap]. rewrite filter_cons_True by done.
      cbn [fmap list_fmap]. simpl. f_equal. apply IH.
    + rewrite bool_decide_eq_false_2.
      * induction fr as [|f fr IH]; [done|].
        cbn [fmap list_fmap]. by rewrite filter_cons_False.
      * intros [_ Heq]. destruct c, c'; done.
  - rewrite bool_decide_eq_false_2; [done|].
    intros Hc. apply Hw in Hc. congruence.
Qed.

End ArbiterFacts.

(** ** The port manager *)

Module PortManagerFacts.
Import PortManager.

Lemma tagInitLoop_start : tagInitLoop 257 0%N [] = Some [0; 1; 2; 3]%N.
Proof. reflexivity. Qed.

Lemma linked_start : linked start observe_start [].
Proof.
  split; simpl; try done. by intros t orig ?%elem_of_nil.
Qed.

(** *** Tags *)

Lemma remove_tag_perm t l : t ∈ l -> l ≡ₚ t :: remove_tag t l.
Proof.
  induction l as [|x l IH]; [by intros ?%elem_of_nil|].
  simpl. destruct (decide (x = t)) as [->|Hne]; [done|].
  intros [?|Hin]%elem_of_cons; [done|].
  rewrite (IH Hin) at 1. apply Permutation_swap.
Qed.

Lemma take_tag_Some t fl orig fl' :
  take_tag t fl = Some (orig, fl') -> fl ≡ₚ (t, orig) :: fl'.
Proof.
  revert fl'. induction fl as [|[t' o] fl IH]; [done|]. intros fl'. simpl.
  destruct (decide (t' = t)) as [->|Hne]; [by intros [= -> ->]|].
  destruct (take_tag t fl) as [[o' fl'']|]; [|done].
  intros [= -> <-]. rewrite (IH fl'') by done. apply Permutation_swap.
Qed.

Lemma pool_tag_lt (l : list N) t :
  l ≡ₚ [0; 1; 2; 3]%N -> t ∈ l -> (t < 4)%N.
Proof.
  intros Hl Hin. rewrite Hl in Hin.
  rewrite !elem_of_cons, elem_of_nil in Hin. lia.
Qed.

(** *** Observers *)

Lemma conformant_step o e :
  conformant (observe_step o e) = true -> conformant o = true.
Proof.
  destruct o as [uqh last tqh fl tph ans uph rts ok], e as [f|t|k|f|f|t|f];
    simpl; try done.
  destruct tph; [|done].
  by destruct (take_tag (Data f !!! 3%fin) fl) as [[orig fl']|].
Qed.

Lemma conformant_fold tr o :
  conformant (fold_left observe_step tr o) = true -> conformant o = true.
Proof.
  revert o. induction tr as [|e tr IH]; intros o; [done|]. simpl.
  intros H%IH. by eapply conformant_step.
Qed.


(** *** Headers *)

Lemma Eofc_set_data2 f a : Eofc (set_data2 f a) = Eofc f.
Proof. done. Qed.
Lemma Eofc_set_data3 f b : Eofc (set_data3 f b) = Eofc f.
Proof. done. Qed.
Lemma Data_set_data2 f a : Data (set_data2 f a) !!! 2%fin = a.
Proof. unfold set_data2. cbn [Data]. apply vlookup_insert. Qed.
Lemma Data_set_data3 f b : Data (set_data3 f b) !!! 3%fin = b.
Proof. unfold set_data3. cbn [Data]. apply vlookup_insert. Qed.
Lemma Data_set_data2_ne f a i :
  i <> 2%fin -> Data (set_data2 f a) !!! i = Data f !!! i.
Proof. intros. unfold set_data2. cbn [Data]. by apply vlookup_insert_ne. Qed.
Lemma Data_set_data3_ne f b i :
  i <> 3%fin -> Data (set_data3 f b) !!! i = Data f !!! i.
Proof. intros. unfold set_data3. cbn [Data]. by apply vlookup_insert_ne. Qed.

Local Opaque set_data2 set_data3.

(** *** One step keeps the link *)

Lemma saved_insert_lower lower upper t t' v orig :
  t <> t' -> saved lower upper t' orig ->
  saved (<[N.to_nat t := v]> lower) upper t' orig.
Proof.
  intros Hne [Hl Hu]. split; [|done].
  rewrite list_lookup_insert_ne; [done|]. lia.
Qed.

Lemma saved_insert_upper lower upper t t' v orig :
  t <> t' -> saved lower upper t' orig ->
  saved lower (<[N.to_nat t := v]> upper) t' orig.
Proof.
  intros Hne [Hl Hu]. split; [done|].
  rewrite list_lookup_insert_ne; [done|]. lia.
Qed.

Lemma resp_linked_observer lower upper pc o o' :
  answering o' = answering o -> tagRespHeader o' = tagRespHeader o ->
  upRespHeader o' = upRespHeader o ->
  resp_linked lower upper pc o -> resp_linked lower upper pc o'.
Proof. intros H1 H2 H3. destruct pc; simpl; rewrite ?H1, ?H2, ?H3; done. Qed.

Lemma req_linked_observer lower upper pc o o' :
  lastRequest o' = lastRequest o -> upReqHeader o' = upReqHeader o ->
  tagReqHeader o' = tagReqHeader o ->
  req_linked lower upper pc o -> req_linked lower upper pc o'.
Proof. intros H1 H2 H3. destruct pc; simpl; rewrite ?H1, ?H2, ?H3; done. Qed.

Lemma resp_linked_insert_lower lower upper pc o t v :
  t ∉ resp_held pc -> resp_linked lower upper pc o ->
  resp_linked (<[N.to_nat t := v]> lower) upper pc o.
Proof.
  destruct pc as [|h t'|h t'|h t'|h| |b]; simpl; try done.
  intros [Hne _]%not_elem_of_cons (orig & ? & ? & ?). exists orig.
  split; [done|]. split; [|done]. by apply saved_insert_lower.
Qed.

Lemma resp_linked_insert_upper lower upper pc o t v :
  t ∉ resp_held pc -> resp_linked lower upper pc o ->
  resp_linked lower (<[N.to_nat t := v]> upper) pc o.
Proof.
  destruct pc as [|h t'|h t'|h t'|h| |b]; simpl; try done.
  - intros [Hne _]%not_elem_of_cons (orig & ? & ? & ?). exists orig.
    split; [done|]. split; [|done]. by apply saved_insert_upper.
  - intros [Hne _]%not_elem_of_cons (orig & ? & ? & ? & ? & ?). exists orig.
    split_and!; try done. rewrite list_lookup_insert_ne; [done|]. lia.
Qed.

(** Tags held by the request flow, in flight and held by the response
    flow are pairwise different. *)
Lemma pool_NoDup (fifo a b c : list N) :
  fifo ++ a ++ b ++ c ≡ₚ [0; 1; 2; 3]%N -> NoDup (a ++ b ++ c).
Proof.
  intros Hp. assert (NoDup (fifo ++ a ++ b ++ c)) as Hnd.
  { rewrite Hp. compute_done. }
  by apply NoDup_app in Hnd as (_ & _ & Hnd).
Qed.

Lemma request_step_linked p s input evs s1 o lz :
  linked s o lz -> request_step p s input = Next evs s1 ->
  linked s1 (fold_left observe_step evs o) (fold_left leased_step evs lz).
Proof.
  intros [Hpool Hlz Hll Hlu Hsv Hrq Hrs Htr].
  pose proof (pool_NoDup _ _ _ _ Hpool) as Hnd.
  destruct s as [lower upper fifo rq rs].
  destruct o as [uqh last tqh fl tph ans uph rts ok].
  unfold request_step. simpl in *.
  destruct rq as [|h|h t|h t|h|h| |b], input as [f|]; simpl in *; try done.
  - (* header read *)
    intros [= <- <-]. destruct Hrq as [-> ->]. simpl.
    split; simpl; done.
  - (* tag leased *)
    destruct fifo as [|t fifo]; [done|]. intros [= <- <-]. simpl.
    split; simpl; try done.
    + rewrite <-Hpool. solve_Permutation.
    + by rewrite Hlz.
  - (* lower table written *)
    destruct (Nat.ltb_spec (N.to_nat t) (length lower)); [|done].
    intros [= <- <-]. simpl.
    apply NoDup_cons in Hnd as [Hnin Hnd]. apply not_elem_of_app in Hnin as [Hfl Hrs'].
    split; simpl; try done.
    + by rewrite length_insert.
    + intros t' orig Hin. apply saved_insert_lower; [|by apply Hsv].
      intros ->. apply Hfl. apply list_elem_of_fmap. by exists (t', orig).
    + destruct Hrq as (? & ? & ?). repeat split; try done.
      by apply list_lookup_insert_eq.
    + by apply resp_linked_insert_lower.
  - (* upper table written, header rewritten *)
    destruct (Nat.ltb_spec (N.to_nat t) (length upper)); [|done].
    intros [= <- <-]. simpl.
    apply NoDup_cons in Hnd as [Hnin Hnd]. apply not_elem_of_app in Hnin as [Hfl Hrs'].
    split; simpl; rewrite ?Data_set_data3, ?Eofc_set_data3, ?Eofc_set_data2;
      try done.
    + by rewrite length_insert.
    + intros t' orig Hin. apply saved_insert_upper; [|by apply Hsv].
      intros ->. apply Hfl. apply list_elem_of_fmap. by exists (t', orig).
    + destruct Hrq as (? & ? & ? & ?). exists h. repeat split; try done.
      by apply list_lookup_insert_eq.
    + by apply resp_linked_insert_upper.
  - (* transfer request *)
    intros [= <- <-]. simpl. split; simpl; try done.
  - (* header sent *)
    intros [= <- <-]. simpl. destruct Hrq as (orig & -> & -> & -> & Hsaved).
    split; simpl; rewrite ?fmap_app; simpl.
    + rewrite <-Hpool. unfold req_next.
      destruct (Eofc h =? 0)%N; simpl; solve_Permutation.
    + rewrite Hlz. unfold req_next.
      destruct (Eofc h =? 0)%N; simpl; solve_Permutation.
    + done.
    + done.
    + intros t orig' [Hin|Hin]%elem_of_app; [by apply Hsv|].
      apply list_elem_of_singleton in Hin as [= -> ->]. done.
    + unfold req_next. by destruct (Eofc h =? 0)%N.
    + eapply resp_linked_observer; [..|done]; done.
    + done.
  - (* body read *)
    intros [= <- <-]. destruct Hrq as [-> ->]. simpl.
    split; simpl; done.
  - (* body sent *)
    intros [= <- <-]. destruct Hrq as [-> ->]. simpl.
    split; simpl; try done.
    + unfold req_next. by destruct (Eofc b =? 0)%N.
    + unfold req_next. by destruct (Eofc b =? 0)%N.
    + unfold req_next. by destruct (Eofc b =? 0)%N.
Qed.


Lemma response_step_linked s input evs s1 o lz :
  linked s o lz -> response_step s input = Next evs s1 ->
  conformant (fold_left observe_step evs o) = true ->
  linked s1 (fold_left observe_step evs o) (fold_left leased_step evs lz).
Proof.
  intros [Hpool Hlz Hll Hlu Hsv Hrq Hrs Htr].
  destruct s as [lower upper fifo rq rs].
  destruct o as [uqh last tqh fl tph ans uph rts ok].
  unfold response_step. simpl in *.
  destruct rs as [|h t|h t|h t|h| |b], input as [f|]; simpl in *; try done.
  - (* header read *)
    intros [= <- <-]. destruct Hrs as [-> ->]. simpl.
    destruct (take_tag (Data f !!! 3%fin) fl) as [[orig fl']|] eqn:Htake;
      [|done]. intros _.
    apply take_tag_Some in Htake.
    assert (fl.*1 ≡ₚ Data f !!! 3%fin :: fl'.*1) as Htags by (by rewrite Htake).
    split; simpl; try done.
    + rewrite <-Hpool, Htags, app_nil_r. solve_Permutation.
    + rewrite Hlz, Htags, app_nil_r. solve_Permutation.
    + intros t orig' Hin. apply Hsv. rewrite Htake. by apply list_elem_of_further.
    + exists orig. split_and!; try done; apply Hsv; rewrite Htake;
        apply list_elem_of_here.
  - (* lower table read *)
    destruct Hrs as (orig & -> & [Hl Hu] & -> & ->). rewrite Hl.
    intros [= <- <-] _. simpl.
    split; simpl; try done.
    exists orig. by rewrite Data_set_data2, Eofc_set_data2.
  - (* upper table read *)
    destruct Hrs as (orig & -> & H2 & Hu & -> & ->). rewrite Hu.
    intros [= <- <-] _. simpl.
    split; simpl; try done.
    exists orig. rewrite Data_set_data3, Eofc_set_data3.
    by rewrite Data_set_data3_ne.
  - (* tag released *)
    destruct (length fifo <? tagFifoCap); [|done].
    intros [= <- <-] _. simpl.
    assert (t ∈ lz) as Hin.
    { rewrite Hlz. rewrite !elem_of_app. right. right. apply list_elem_of_here. }
    split; simpl; try done.
    + rewrite <-Hpool. solve_Permutation.
    + apply remove_tag_perm in Hin. rewrite Hin in Hlz.
      apply (Permutation_cons_inv (a := t)). rewrite Hlz. solve_Permutation.
  - (* header delivered *)
    intros [= <- <-] _. simpl.
    destruct Hrs as (orig & -> & H2 & H3 & -> & ->).
    assert (resp_held (resp_next h) = []) as Hnext
      by (unfold resp_next; by destruct (Eofc h =? 0)%N).
    split; simpl; rewrite ?Hnext; try done.
    + unfold resp_next. by destruct (Eofc h =? 0)%N.
    + apply Forall_app. split; [done|]. by repeat constructor.
  - (* body read *)
    intros [= <- <-] _. destruct Hrs as [-> ->]. simpl.
    split; simpl; try done.
  - (* body delivered *)
    intros [= <- <-] _. destruct Hrs as [-> ->]. simpl.
    assert (resp_held (resp_next b) = []) as Hnext
      by (unfold resp_next; by destruct (Eofc b =? 0)%N).
    split; simpl; rewrite ?Hnext; try done.
    unfold resp_next. by destruct (Eofc b =? 0)%N.
Qed.


Lemma step_linked p s m evs s1 o lz :
  linked s o lz -> step p s m = Next evs s1 ->
  conformant (fold_left observe_step evs o) = true ->
  linked s1 (fold_left observe_step evs o) (fold_left leased_step evs lz).
Proof.
  intros Hs. destruct m; simpl; intros Hstep Hok;
    eauto using request_step_linked, response_step_linked.
Qed.

(** A linked state does not index its tables out of range. *)
Lemma step_linked_safe p s m o lz : linked s o lz -> step p s m <> Panic.
Proof.
  intros [Hpool Hlz Hll Hlu Hsv Hrq Hrs Htr].
  destruct s as [lower upper fifo rq rs]. simpl in *.
  assert (forall t, t ∈ req_held rq -> N.to_nat t < 4) as Hreq.
  { intros t Hin. enough (t < 4)%N by lia.
    eapply pool_tag_lt; [done|]. rewrite !elem_of_app. auto. }
  destruct m as [|f| |f]; simpl; unfold request_step, response_step; simpl.
  - destruct rq as [|h|h t|h t|h|h| |b]; simpl in *; try done.
    + by destruct fifo.
    + rewrite Hll. destruct (Nat.ltb_spec (N.to_nat t) 4); [done|].
      specialize (Hreq t (list_elem_of_here _ _)). lia.
    + rewrite Hlu. destruct (Nat.ltb_spec (N.to_nat t) 4); [done|].
      specialize (Hreq t (list_elem_of_here _ _)). lia.
  - by destruct rq.
  - destruct rs as [|h t|h t|h t|h| |b]; simpl in *; try done.
    + destruct Hrs as (orig & _ & [-> _] & _). done.
    + destruct Hrs as (orig & _ & _ & -> & _). done.
    + by destruct (length fifo <? tagFifoCap).
  - by destruct rs.
Qed.

(** Whatever the moves and however they end, the events they gave lead
    to a linked state as long as the responses conform. *)
Lemma run_linked p ms s o lz tr e :
  linked s o lz -> run p s ms = (tr, e) ->
  conformant (fold_left observe_step tr o) = true ->
  e <> Panicked /\
  exists s', linked s' (fold_left observe_step tr o) (fold_left leased_step tr lz) /\
             (forall s'', e = Running s'' -> s'' = s').
Proof.
  revert s o lz tr e. induction ms as [|m ms IH]; intros s o lz tr e Hs; simpl.
  - intros [= <- <-] _. split; [done|]. exists s. split; [done|]. by intros ? [= <-].
  - destruct (step p s m) as [evs s1| |] eqn:Hstep.
    + destruct (run p s1 ms) as [tr' e'] eqn:Hrun. intros [= <- <-].
      rewrite !fold_left_app. intros Hok.
      eapply (IH s1); [|done|done].
      eapply step_linked; [done..|]. by eapply conformant_fold.
    + intros [= <- <-] _. split; [done|]. exists s. by split.
    + by apply step_linked_safe with (p := p) (m := m) in Hs.
Qed.

(** *** Safety without conformance *)

Lemma indexable_start : indexable start.
Proof. split; simpl; try done. by repeat constructor. Qed.

Lemma request_step_indexable p s input evs s1 :
  indexable s -> request_step p s input = Next evs s1 ->
  indexable s1 /\ tagged_responses evs = [] /\ respFlow s1 = respFlow s.
Proof.
  intros [Hf Hq Hr Hl Hu]. destruct s as [lower upper fifo rq rs].
  unfold request_step. simpl in *.
  destruct rq as [|h|h t|h t|h|h| |b], input as [f|]; simpl in *; try done.
  - intros [= <- <-]. by repeat split.
  - destruct fifo as [|t fifo]; [done|]. intros [= <- <-].
    apply Forall_cons in Hf as [Ht Hf]. repeat split; simpl; try done.
    by repeat constructor.
  - destruct (N.to_nat t <? length lower); [|done]. intros [= <- <-].
    repeat split; simpl; try done. by rewrite length_insert.
  - destruct (N.to_nat t <? length upper); [|done]. intros [= <- <-].
    repeat split; simpl; rewrite ?Data_set_data3; try done.
    by rewrite length_insert.
  - intros [= <- <-]. by repeat split.
  - intros [= <- <-]. repeat split; simpl; try done.
    unfold req_next. by destruct (Eofc h =? 0)%N.
  - intros [= <- <-]. by repeat split.
  - intros [= <- <-]. repeat split; simpl; try done.
    unfold req_next. by destruct (Eofc b =? 0)%N.
Qed.

Lemma response_step_heads s input evs s1 fs :
  response_step s input = Next evs s1 ->
  frame_heads (resp_header_next (respFlow s)) (tagged_responses evs ++ fs)
  = frame_heads (resp_header_next (respFlow s)) (tagged_responses evs)
    ++ frame_heads (resp_header_next (respFlow s1)) fs.
Proof.
  destruct s as [lower upper fifo rq rs].
  unfold response_step. simpl in *.
  destruct rs as [|h t|h t|h t|h| |b], input as [f|]; simpl in *; try done.
  - by intros [= <- <-].
  - destruct (lower !! N.to_nat t); [|done]. intros [= <- <-].
    by rewrite ?Eofc_set_data2.
  - destruct (upper !! N.to_nat t); [|done]. intros [= <- <-].
    by rewrite ?Eofc_set_data3.
  - destruct (length fifo <? tagFifoCap); [|done]. by intros [= <- <-].
  - intros [= <- <-]. simpl. unfold resp_next. by destruct (Eofc h =? 0)%N.
  - by intros [= <- <-].
  - intros [= <- <-]. simpl. unfold resp_next. by destruct (Eofc b =? 0)%N.
Qed.

Lemma response_step_indexable s input evs s1 :
  indexable s -> response_step s input = Next evs s1 ->
  Forall (fun h => tag_in_range h = true)
         (frame_heads (resp_header_next (respFlow s)) (tagged_responses evs)) ->
  indexable s1.
Proof.
  intros [Hf Hq Hr Hl Hu]. destruct s as [lower upper fifo rq rs].
  unfold response_step. simpl in *.
  destruct rs as [|h t|h t|h t|h| |b], input as [f|]; simpl in *; try done.
  - intros [= <- <-]. simpl. intros [Hok _]%Forall_cons.
    split; simpl; try done.
    repeat constructor. unfold tag_in_range in Hok. by apply N.ltb_lt.
  - destruct (lower !! N.to_nat t); [|done]. intros [= <- <-] _. by split.
  - destruct (upper !! N.to_nat t); [|done]. intros [= <- <-] _. by split.
  - destruct (length fifo <? tagFifoCap); [|done]. intros [= <- <-] _.
    split; simpl; try done.
    apply Forall_app. split; [done|].
    apply Forall_cons in Hr as [? _]. by repeat constructor.
  - intros [= <- <-] _.
    split; simpl; try done. unfold resp_next. by destruct (Eofc h =? 0)%N.
  - intros [= <- <-] _. by split.
  - intros [= <- <-] _.
    split; simpl; try done. unfold resp_next. by destruct (Eofc b =? 0)%N.
Qed.

Lemma indexable_safe p s m : indexable s -> step p s m <> Panic.
Proof.
  intros [Hf Hq Hr Hl Hu]. destruct s as [lower upper fifo rq rs]. simpl in *.
  destruct m as [|f| |f]; simpl; unfold request_step, response_step; simpl.
  - destruct rq as [|h|h t|h t|h|h| |b]; simpl in *; try done.
    + by destruct fifo.
    + apply Forall_cons in Hq as [Ht _]. rewrite Hl.
      destruct (Nat.ltb_spec (N.to_nat t) 4); [done|lia].
    + apply Forall_cons in Hq as [Ht _]. rewrite Hu.
      destruct (Nat.ltb_spec (N.to_nat t) 4); [done|lia].
  - by destruct rq.
  - destruct rs as [|h t|h t|h t|h| |b]; simpl in *; try done.
    + apply Forall_cons in Hr as [Ht _].
      destruct (lower !! N.to_nat t) eqn:Hlk; [done|].
      apply lookup_ge_None in Hlk. lia.
    + apply Forall_cons in Hr as [Ht _].
      destruct (upper !! N.to_nat t) eqn:Hlk; [done|].
      apply lookup_ge_None in Hlk. lia.
    + by destruct (length fifo <? tagFifoCap).
  - by destruct rs.
Qed.

Lemma tagged_responses_app tr1 tr2 :
  tagged_responses (tr1 ++ tr2) = tagged_responses tr1 ++ tagged_responses tr2.
Proof. apply omap_app. Qed.

Lemma run_indexable p ms s tr e :
  indexable s -> run p s ms = (tr, e) ->
  Forall (fun h => tag_in_range h = true)
         (frame_heads (resp_header_next (respFlow s)) (tagged_responses tr)) ->
  e <> Panicked.
Proof.
  revert s tr e. induction ms as [|m ms IH]; intros s tr e Hs; simpl.
  - by intros [= <- <-].
  - destruct (step p s m) as [evs s1| |] eqn:Hstep.
    + destruct (run p s1 ms) as [tr' e'] eqn:Hrun. intros [= <- <-].
      rewrite tagged_responses_app.
      destruct m as [|f| |f]; simpl in Hstep.
      * destruct (request_step_indexable _ _ _ _ _ Hs Hstep) as (Hs1 & -> & <-).
        by apply IH.
      * destruct (request_step_indexable _ _ _ _ _ Hs Hstep) as (Hs1 & -> & <-).
        by apply IH.
      * rewrite (response_step_heads _ _ _ _ _ Hstep).
        intros [Hnow Hall]%Forall_app.
        eauto using response_step_indexable.
      * rewrite (response_step_heads _ _ _ _ _ Hstep).
        intros [Hnow Hall]%Forall_app.
        eauto using response_step_indexable.
    + by intros [= <- <-].
    + by apply indexable_safe with (p := p) (m := m) in Hs.
Qed.


(** *** The tagged request stream *)

Lemma request_step_expect p s input evs s1 tags ins :
  request_step p s input = Next evs s1 ->
  expect p (reqFlow s) (leases evs ++ tags) (upstream_requests evs ++ ins)
  = tagged_requests evs ++ expect p (reqFlow s1) tags ins.
Proof.
  destruct s as [lower upper fifo rq rs]. unfold request_step. simpl.
  destruct rq as [|h|h t|h t|h|h| |b], input as [f|]; simpl; try done.
  - by intros [= <- <-].
  - destruct fifo as [|t fifo]; [done|]. by intros [= <- <-].
  - destruct (N.to_nat t <? length lower); [|done]. by intros [= <- <-].
  - destruct (N.to_nat t <? length upper); [|done]. intros [= <- <-]. simpl.
    by rewrite Eofc_set_data3, Eofc_set_data2.
  - by intros [= <- <-].
  - intros [= <- <-]. simpl. unfold req_next. by destruct (Eofc h =? 0)%N.
  - by intros [= <- <-].
  - intros [= <- <-]. simpl. unfold req_next. by destruct (Eofc b =? 0)%N.
Qed.

Lemma response_step_expect s input evs s1 :
  response_step s input = Next evs s1 ->
  leases evs = [] /\ upstream_requests evs = [] /\ tagged_requests evs = [] /\
  reqFlow s1 = reqFlow s.
Proof.
  destruct s as [lower upper fifo rq rs]. unfold response_step. simpl.
  destruct rs as [|h t|h t|h t|h| |b], input as [f|]; simpl; try done;
    repeat case_match; try done; by intros [= <- <-].
Qed.

Lemma step_expect p s m evs s1 tags ins :
  step p s m = Next evs s1 ->
  expect p (reqFlow s) (leases evs ++ tags) (upstream_requests evs ++ ins)
  = tagged_requests evs ++ expect p (reqFlow s1) tags ins.
Proof.
  destruct m; simpl; intros Hstep; eauto using request_step_expect.
  all: by apply response_step_expect in Hstep as (-> & -> & -> & ->).
Qed.

Lemma run_expect p ms s tr e :
  run p s ms = (tr, e) ->
  exists rest,
    expect p (reqFlow s) (leases tr) (upstream_requests tr)
    = tagged_requests tr ++ rest /\
    (forall s', e = Running s' -> rest = expect p (reqFlow s') [] []).
Proof.
  revert s tr e. induction ms as [|m ms IH]; intros s tr e; simpl.
  - intros [= <- <-]. eexists. split; [done|]. by intros ? [= <-].
  - destruct (step p s m) as [evs s1| |] eqn:Hstep.
    + destruct (run p s1 ms) as [tr' e'] eqn:Hrun. intros [= <- <-].
      destruct (IH _ _ _ Hrun) as (rest & Heq & Hrest). exists rest.
      split; [|done]. unfold leases, upstream_requests, tagged_requests.
      rewrite !omap_app. fold (leases evs) (leases tr').
      fold (upstream_requests evs) (upstream_requests tr').
      fold (tagged_requests evs) (tagged_requests tr').
      rewrite (step_expect _ _ _ _ _ _ _ Hstep), Heq. by rewrite app_assoc.
    + intros [= <- <-]. eexists. split; [done|]. done.
    + intros [= <- <-]. eexists. split; [done|]. done.
Qed.

End PortManagerFacts.

(** * The properties of the specification *)

Import Assemble Forward Arbiter PortManager.
Import AssembleFacts ForwardFacts ArbiterFacts PortManagerFacts.

(** ** Protocol constants *)

(** C9: the protocol constants have the values of the specification:
    write request 0x01, write response 0xFE, read request 0x02, read
    response 0xFD, default options 0x00, unbuffered option 0x01, burst
    size 256, in-flight limit 4, frame size 34 flits, which is 2 header
    flits plus a burst of 256/8 body flits; and the capacity of the
    buffer in [ForwardFrame64] and [AssembleFrame64] is that frame size. *)
Theorem protocol_constants :
  SmiMemWriteReq = 0x01%N /\ SmiMemWriteResp = 0xFE%N /\
  SmiMemReadReq = 0x02%N /\ SmiMemReadResp = 0xFD%N /\
  DefaultOptions = 0x00%N /\ MemOptUnbuffered = 0x01%N /\
  SmiMemBurstSize = 256%N /\ SmiMemInFlightLimit = 4%N /\
  SmiMemFrame64Size = 34%N /\
  SmiMemFrame64Size = (2 + SmiMemBurstSize / 8)%N /\
  N.of_nat smiBufferCap = SmiMemFrame64Size.
Proof. repeat split. Qed.

(** ** Frame buffers *)

(** C10: on a stream that starts with one frame of at most 34 flits,
    [AssembleFrame64] returns having written exactly the flits of the
    frame, in order and unchanged, and having read nothing more; so does
    [ForwardFrame64] under every interleaving of its two goroutines:
    some schedule makes it return, no schedule is longer than four steps
    per flit, what is written is always a prefix of the frame, a call that
    has returned wrote the whole frame and left the rest unread, and a
    call that has not returned can always take a step. *)
Theorem frame_buffers_agree (fr rest : list Flit64) :
  is_frame fr = true -> length fr <= 34 ->
  AssembleFrame64 (fr ++ rest) = Some (fr, rest) /\
  (exists sched s,
      relay_run (relay_start (fr ++ rest)) sched = Some s /\ returned s = true) /\
  (forall sched s,
      relay_run (relay_start (fr ++ rest)) sched = Some s ->
      length sched <= 4 * length fr /\
      smiOutput s `prefix_of` fr /\
      (returned s = true -> smiOutput s = fr /\ smiInput s = rest) /\
      (returned s = false -> exists m s', relay_step s m = Some s')).
Proof.
  intros Hfr Hlen. split; [by apply AssembleFrame64_frame|]. split.
  - apply (run_complete fr rest Hfr (4 * length fr)); [apply inv_start|].
    unfold weight, relay_start, in_held, out_held. simpl.
    rewrite length_app. lia.
  - intros sched s Hrun.
    pose proof (run_inv _ _ _ _ (inv_start _) Hrun) as Hs.
    pose proof (run_weight _ _ _ Hrun) as Hw. split_and!.
    + pose proof (inv_input_rest fr rest Hfr s Hs).
      unfold weight, relay_start, in_held, out_held in Hw. simpl in Hw.
      rewrite length_app in Hw. lia.
    + by apply inv_output_prefix with rest.
    + intros Hret. destruct (inv_returned _ _ Hs Hret) as (Hout & Heq & _).
      symmetry in Heq. by destruct (is_frame_unique _ _ _ _ Hout Hfr Heq).
    + by apply inv_progress with fr rest.
Qed.

Lemma frame_buffers_agree_witness :
  is_frame Sample.burst = true /\ length Sample.burst <= 34 /\
  AssembleFrame64 (Sample.burst ++ Sample.trailer)
    = Some (Sample.burst, Sample.trailer) /\
  exists sched s,
    relay_run (relay_start (Sample.burst ++ Sample.trailer)) sched = Some s /\
    returned s = true.
Proof.
  split; [reflexivity|]. split; [simpl; lia|].
  destruct (frame_buffers_agree Sample.burst Sample.trailer) as (Ha & Hf & _);
    [reflexivity|simpl; lia|].
  split; [exact Ha|exact Hf].
Defined.

(** The bound on the length of the frame is the capacity of the buffer:
    on a longer frame [AssembleFrame64] blocks for ever in its first loop,
    which [ForwardFrame64] does not. *)
Lemma AssembleFrame64_overflow fr rest :
  is_frame fr = true -> 34 < length fr -> AssembleFrame64 (fr ++ rest) = None.
Proof.
  intros Hfr Hlen. unfold AssembleFrame64. by rewrite fill_overflow.
Qed.

(** C8, as the code has it: [ForwardFrame64] and [AssembleFrame64] relay
    one frame per call and then return.  A call that returns has written
    exactly one frame, the first of its input, and has left the rest of
    the input unread; after the return of [ForwardFrame64] neither of its
    goroutines can take a further step, and it has returned as soon as
    what it wrote is a whole frame.  The return is reached: on an input
    that starts with a frame, [AssembleFrame64] returns when the frame
    fits the buffer, and [ForwardFrame64] has a schedule that returns with
    the frame written and the rest unread, no schedule of more than four
    steps per flit of the frame, and a step to take as long as it has not
    returned. *)
Theorem frame_buffers_one_shot (input : list Flit64) :
  (forall out rest,
      AssembleFrame64 input = Some (out, rest) ->
      is_frame out = true /\ input = out ++ rest) /\
  (forall sched s,
      relay_run (relay_start input) sched = Some s -> returned s = true ->
      is_frame (smiOutput s) = true /\ input = smiOutput s ++ smiInput s /\
      forall m, relay_step s m = None) /\
  (forall sched s,
      relay_run (relay_start input) sched = Some s ->
      is_frame (smiOutput s) = true -> returned s = true) /\
  (forall fr rest,
      is_frame fr = true -> input = fr ++ rest ->
      (length fr <= 34 -> AssembleFrame64 input = Some (fr, rest)) /\
      (exists sched s,
          relay_run (relay_start input) sched = Some s /\ returned s = true /\
          smiOutput s = fr /\ smiInput s = rest) /\
      (forall sched s,
          relay_run (relay_start input) sched = Some s ->
          length sched <= 4 * length fr /\
          (returned s = false -> exists m s', relay_step s m = Some s'))).
Proof.
  split_and!.
  - intros out rest. apply AssembleFrame64_Some.
  - intros sched s Hrun Hret.
    pose proof (run_inv _ _ _ _ (inv_start _) Hrun) as Hs.
    destruct (inv_returned _ _ Hs Hret) as (Hout & Heq & _).
    split_and!; [done..|]. by eapply returned_final.
  - intros sched s Hrun Hout.
    destruct (run_inv _ _ _ _ (inv_start _) Hrun) as [_ _ Heg].
    unfold returned. destruct (egress s); try done;
      by destruct (is_frame_not_more (smiOutput s)).
  - intros fr rest Hfr ->. split_and!.
    + intros Hlen. by apply AssembleFrame64_frame.
    + destruct (run_complete fr rest Hfr (4 * length fr) (relay_start (fr ++ rest)))
        as (sched & s & Hrun & Hret); [apply inv_start| |].
      { unfold weight, relay_start, in_held, out_held. simpl.
        rewrite length_app. lia. }
      exists sched, s. split; [done|]. split; [done|].
      pose proof (run_inv _ _ _ _ (inv_start _) Hrun) as Hs.
      destruct (inv_returned _ _ Hs Hret) as (Hout & Heq & _).
      symmetry in Heq. by destruct (is_frame_unique _ _ _ _ Hout Hfr Heq).
    + intros sched s Hrun.
      pose proof (run_inv _ _ _ _ (inv_start _) Hrun) as Hs.
      pose proof (run_weight _ _ _ Hrun) as Hw. split.
      * pose proof (inv_input_rest fr rest Hfr s Hs).
        unfold weight, relay_start, in_held, out_held in Hw. simpl in Hw.
        rewrite length_app in Hw. lia.
      * by apply inv_progress with fr rest.
Qed.

Lemma frame_buffers_one_shot_witness :
  AssembleFrame64 [Sample.first; Sample.second]
    = Some ([Sample.first], [Sample.second]) /\
  exists sched s,
    relay_run (relay_start [Sample.first; Sample.second]) sched = Some s /\
    returned s = true /\
    smiOutput s = [Sample.first] /\ smiInput s = [Sample.second].
Proof.
  destruct (frame_buffers_one_shot [Sample.first; Sample.second])
    as (_ & _ & _ & Hone).
  destruct (Hone [Sample.first] [Sample.second] eq_refl eq_refl)
    as (Ha & Hf & _).
  split; [apply Ha; simpl; lia|exact Hf].
Defined.

(** C8, against the claim that the relays go on with the next frame: on
    two frames of one flit each, [AssembleFrame64] returns after the first
    with the second unread, [ForwardFrame64] can return, and under no
    schedule does it ever write the second. *)
Lemma frame_buffers_stop_after_first :
  AssembleFrame64 [Sample.first; Sample.second]
    = Some ([Sample.first], [Sample.second]) /\
  (exists s,
      relay_run (relay_start [Sample.first; Sample.second])
                [Ingress; Ingress; Egress; Egress] = Some s /\
      returned s = true /\ smiInput s = [Sample.second]) /\
  ~ (exists sched s,
        relay_run (relay_start [Sample.first; Sample.second]) sched = Some s /\
        Sample.second ∈ smiOutput s).
Proof.
  split; [reflexivity|]. split; [by eexists|].
  intros (sched & s & Hrun & Hin).
  pose proof (run_inv _ _ _ _ (inv_start _) Hrun) as Hs.
  apply (inv_output_prefix [Sample.first] [Sample.second] eq_refl) in Hs
    as [k Hk].
  destruct (smiOutput s) as [|f out]; [by apply elem_of_nil in Hin|].
  injection Hk as <- Hk. destruct out; [|done].
  apply list_elem_of_singleton in Hin. discriminate Hin.
Qed.

(** ** The arbiters *)

(** C2: in the stream an arbiter ([ArbitrateX2], [ArbitrateX3],
    [ArbitrateX4]) writes to the downstream request channel, frames are
    not interleaved: from the first flit of a frame up to and including
    the first flit with a nonzero completion code every flit is read from
    the same tagged-request channel, and the channel read for the id of a
    configured port is that port's. *)
Theorem frame_atomicity (a : arbiter) (ms : list arbitrate_move)
    (out : list (port * Flit64)) (pc : arbitrate_pc) :
  a ∈ arbiters ->
  arbitrate_run a ReqSelect ms = Some (out, pc) ->
  frames_atomic None out = true /\
  (forall c, c ∈ ports a -> requestSource a (port_id c) = c).
Proof.
  intros Ha Hrun. split.
  - by apply (arbitrate_run_atomic a ms ReqSelect None out pc I).
  - by apply wired_arbiters.
Qed.

Lemma frame_atomicity_witness :
  ArbitrateX3 ∈ arbiters /\
  arbitrate_run ArbitrateX3 ReqSelect Sample.arbitration
    = Some (Sample.arbitrated, ReqSelect) /\
  frames_atomic None Sample.arbitrated = true.
Proof.
  assert (ArbitrateX3 ∈ arbiters) as Ha by (unfold arbiters; repeat constructor).
  split; [exact Ha|]. split; [reflexivity|].
  exact (proj1 (frame_atomicity ArbitrateX3 Sample.arbitration
                  Sample.arbitrated ReqSelect Ha eq_refl)).
Defined.

Lemma delivered_frames a c frames :
  wired a ->
  delivered c (concat ((fun fr => routed a (header_port fr) fr) <$> frames))
  = if bool_decide (c ∈ ports a)
    then concat (filter (fun fr => header_port fr = port_id c) frames)
    else [].
Proof.
  intros Hw. induction frames as [|fr frames IH]; [by case_bool_decide|].
  cbn [fmap list_fmap concat]. rewrite delivered_app, IH, delivered_routed by done.
  destruct (decide (c ∈ ports a)) as [Hc|Hc].
  - rewrite (bool_decide_eq_true_2 (c ∈ ports a)) by done.
    destruct (decide (header_port fr = port_id c)) as [Hk|Hk].
    + rewrite bool_decide_eq_true_2 by done. by rewrite filter_cons_True.
    + rewrite bool_decide_eq_false_2 by (by intros [_ ?]).
      by rewrite filter_cons_False.
  - rewrite (bool_decide_eq_false_2 (c ∈ ports a)) by done.
    by rewrite bool_decide_eq_false_2 by (by intros [? _]).
Qed.

(** C4: for each arbiter and each stream of frames on the downstream
    response channel, the tagged-response channel of a configured port
    receives exactly the frames whose header carries the id of that port
    at offset 2, each of them whole (header and body up to the flit with a
    nonzero completion code) and in order, and nothing else, whatever
    frames for other ports come in between; a port that is not configured
    receives nothing. *)
Theorem response_steering (a : arbiter) (frames : list (list Flit64)) (c : port) :
  a ∈ arbiters ->
  forallb is_frame frames = true ->
  delivered c (steer_run a steer_start (concat frames)).1
  = if bool_decide (c ∈ ports a)
    then concat (filter (fun fr => header_port fr = port_id c) frames)
    else [].
Proof.
  intros Ha%wired_arbiters Hfrs.
  destruct (steer_run_frames a frames steer_start Hfrs eq_refl) as [-> _].
  by apply delivered_frames.
Qed.

Lemma response_steering_witness :
  ArbitrateX4 ∈ arbiters /\ forallb is_frame Sample.responses = true /\
  delivered PortC (steer_run ArbitrateX4 steer_start (concat Sample.responses)).1
  = [Sample.flit 253 0 3 0 0; Sample.flit 9 9 1 9 8;
     Sample.flit 253 0 3 1 0; Sample.flit 9 9 4 9 0; Sample.flit 9 9 2 9 8].
Proof.
  assert (ArbitrateX4 ∈ arbiters) as Ha by (unfold arbiters; repeat constructor).
  split; [exact Ha|]. split; [reflexivity|].
  rewrite (response_steering ArbitrateX4 Sample.responses PortC Ha eq_refl).
  reflexivity.
Defined.

(** C5: a response frame whose header carries, at offset 2, an id that
    is the id of no configured port (0 for one) is dropped whole: after
    any complete frames, it adds nothing to what any port receives, the
    loop is back at a frame boundary after it, and what follows is steered
    as if the frame had not been there. *)
Theorem invalid_routing_discarded (a : arbiter) (pre : list (list Flit64))
    (bad rest : list Flit64) :
  a ∈ arbiters ->
  forallb is_frame pre = true -> is_frame bad = true ->
  Forall (fun c => header_port bad <> port_id c) (ports a) ->
  (steer_run a steer_start (concat pre ++ bad)).1
    = (steer_run a steer_start (concat pre)).1 /\
  isHeaderFlit (steer_run a steer_start (concat pre ++ bad)).2 = true /\
  (steer_run a steer_start (concat pre ++ bad ++ rest)).1
    = (steer_run a steer_start (concat pre ++ rest)).1.
Proof.
  intros [_ Hw]%wired_arbiters Hpre Hbad Hid.
  assert (responseTarget a (header_port bad) = None) as Hnone.
  { destruct (responseTarget a (header_port bad)) as [c|] eqn:Hc; [|done].
    apply Hw in Hc as [Hc Heq]. rewrite Forall_forall in Hid.
    by destruct (Hid c Hc). }
  destruct (steer_run_frames a pre steer_start Hpre eq_refl) as [_ Hhdr].
  pose proof (steer_run_frame a bad _ Hbad Hhdr) as Hrun.
  unfold routed in Hrun. rewrite Hnone in Hrun.
  rewrite !steer_run_app, Hrun. cbn [fst snd isHeaderFlit].
  split_and!; [by rewrite app_nil_r|done|].
  f_equal. by apply steer_run_header.
Qed.

Lemma invalid_routing_discarded_witness :
  ArbitrateX3 ∈ arbiters /\ forallb is_frame Sample.responses = true /\
  is_frame Sample.unrouted = true /\
  Forall (fun c => header_port Sample.unrouted <> port_id c) (ports ArbitrateX3) /\
  (steer_run ArbitrateX3 steer_start
     (concat Sample.responses ++ Sample.unrouted ++ Sample.burst)).1
  = (steer_run ArbitrateX3 steer_start (concat Sample.responses ++ Sample.burst)).1.
Proof.
  assert (ArbitrateX3 ∈ arbiters) as Ha by (unfold arbiters; repeat constructor).
  assert (Forall (fun c => header_port Sample.unrouted <> port_id c)
                 (ports ArbitrateX3)) as Hid by (by repeat constructor).
  split; [exact Ha|]. split; [reflexivity|]. split; [reflexivity|].
  split; [exact Hid|].
  apply (invalid_routing_discarded ArbitrateX3 Sample.responses Sample.unrouted
           Sample.burst Ha eq_refl eq_refl Hid).
Defined.

(** ** The port manager *)

(** The round trips an observer records are the frame headers written
    to the upstream response channel, one each and in order. *)
Lemma roundTrips_heads_from tr o :
  (roundTrips (fold_left observe_step tr o)).*2
  = (roundTrips o).*2 ++ frame_heads (upRespHeader o) (upstream_responses tr).
Proof.
  revert o. induction tr as [|e tr IH]; intros o; simpl.
  - by rewrite app_nil_r.
  - rewrite IH. destruct o as [uqh last tqh fl tph ans uph rts ok].
    destruct e as [f|t|k|f|f|t|f]; simpl; try done.
    + destruct tph; [|done].
      by destruct (take_tag (Data f !!! 3%fin) fl) as [[orig fl']|].
    + destruct uph; simpl; [|done]. by rewrite fmap_app, <-app_assoc.
Qed.

(** C1: in every execution of a port manager in which each response
    header brings back the tag (offset 3) of a request in flight, each
    response header delivered on the upstream response channel carries at
    offsets 2 and 3 the bytes that the header of its request had there
    when it was read from the upstream request channel, before the port id
    and the tag were written over them; up to four requests can be in
    flight, answered in any order. *)
Theorem tag_round_trip (p : N) (ms : list move) :
  conformant (observe (trace p ms)) = true ->
  (roundTrips (observe (trace p ms))).*2
    = frame_heads true (upstream_responses (trace p ms)) /\
  Forall restored (roundTrips (observe (trace p ms))).
Proof.
  intros Hok. split; [apply (roundTrips_heads_from _ observe_start)|].
  unfold trace in *. destruct (run p start ms) as [tr e] eqn:Hrun.
  destruct (run_linked p ms start observe_start [] tr e linked_start Hrun Hok)
    as (_ & s & Hs & _).
  apply Hs.
Qed.

Lemma tag_round_trip_witness :
  conformant (observe (trace 1 Sample.four_in_flight)) = true /\
  length (roundTrips (observe (trace 1 Sample.four_in_flight))) = 4 /\
  Forall restored (roundTrips (observe (trace 1 Sample.four_in_flight))).
Proof.
  split; [vm_compute; reflexivity|]. split; [vm_compute; reflexivity|].
  apply (tag_round_trip 1 Sample.four_in_flight). vm_compute. reflexivity.
Defined.

Example four_round_trips :
  (fun rt : option Flit64 * Flit64 => (Data <$> rt.1, Data rt.2))
    <$> roundTrips (observe (trace 1 Sample.four_in_flight))
  = [(Some [# 1; 0; 162; 178; 0; 0; 0; 0], [# 253; 0; 162; 178; 0; 0; 0; 0]);
     (Some [# 2; 0; 160; 176; 0; 0; 0; 0], [# 253; 0; 160; 176; 0; 0; 0; 0]);
     (Some [# 1; 0; 163; 179; 0; 0; 0; 0], [# 254; 0; 163; 179; 0; 0; 0; 0]);
     (Some [# 2; 0; 161; 177; 0; 0; 0; 0], [# 254; 0; 161; 177; 0; 0; 0; 0])]%N.
Proof. vm_compute. reflexivity. Qed.

(** The pool changes only by a lease of the request flow, which takes
    its head, and by a release of the response flow, which adds at its
    end. *)
Lemma pool_moves p s m evs s' :
  step p s m = Next evs s' ->
  tagFifo s' = tagFifo s \/
  (exists t, tagFifo s = t :: tagFifo s' /\ evs = [TagLeased t]) \/
  (exists t, tagFifo s' = tagFifo s ++ [t] /\ evs = [TagReleased t] /\ m = RespStep).
Proof.
  destruct s as [lower upper fifo rq rs].
  destruct m as [|f| |f]; simpl; unfold request_step, response_step; simpl.
  - destruct rq as [|h|h t|h t|h|h| |b]; try done;
      repeat case_match; try done; intros [= <- <-]; simpl; eauto.
  - destruct rq as [|h|h t|h t|h|h| |b]; try done; intros [= <- <-]; simpl; eauto.
  - destruct rs as [|h t|h t|h t|h| |b]; try done;
      repeat case_match; try done; intros [= <- <-]; simpl; eauto 10.
  - destruct rs as [|h t|h t|h t|h| |b]; try done; intros [= <- <-]; simpl; eauto.
Qed.

(** C3, as the code has it: in every execution of a port manager in
    which each response header brings back the tag of a request in flight
    (the code does not check this): the pool starts as the tags 0, 1, 2,
    3; the tags on lease are pairwise different, below 4 and at most 4;
    the requests in flight hold pairwise different tags among those on
    lease and are at most 4; the pool and the tags on lease together are
    always the tags 0 to 3, so that with 4 tags on lease the pool is empty
    and the request flow cannot lease a tag for a further request; and the
    pool grows only when the response flow releases a tag. *)
Theorem in_flight_bound (p : N) (ms : list move) :
  conformant (observe (trace p ms)) = true ->
  tagFifo start = [0; 1; 2; 3]%N /\
  NoDup (leased (trace p ms)) /\
  Forall (fun t => (t < 4)%N) (leased (trace p ms)) /\
  length (leased (trace p ms)) <= 4 /\
  NoDup (inFlight (observe (trace p ms))).*1 /\
  (inFlight (observe (trace p ms))).*1 ⊆ leased (trace p ms) /\
  length (inFlight (observe (trace p ms))) <= 4 /\
  (forall s, final p ms = Running s ->
     tagFifo s ++ leased (trace p ms) ≡ₚ [0; 1; 2; 3]%N /\
     (length (leased (trace p ms)) = 4 ->
      tagFifo s = [] /\
      forall h, reqFlow s = RqLeaseTag h -> step p s ReqStep = Blocked)) /\
  (forall s m evs s',
     step p s m = Next evs s' -> length (tagFifo s) < length (tagFifo s') ->
     m = RespStep /\ exists t, evs = [TagReleased t]).
Proof.
  intros Hok. unfold trace, final in *.
  destruct (run p start ms) as [tr e] eqn:Hrun. simpl in *.
  destruct (run_linked p ms start observe_start [] tr e linked_start Hrun Hok)
    as (_ & s & [Hpool Hlz _ _ _ _ _ _] & Hend).
  fold (leased tr) in Hlz. fold (observe tr) in Hpool, Hlz.
  assert (tagFifo s ++ leased tr ≡ₚ [0; 1; 2; 3]%N) as Hall
    by (by rewrite Hlz).
  assert (NoDup (tagFifo s ++ leased tr)) as Hnd
    by (rewrite Hall; compute_done).
  apply NoDup_app in Hnd as (_ & _ & Hnd).
  pose proof (Permutation_length Hall) as Hlen.
  rewrite length_app in Hlen. simpl in Hlen.
  assert (NoDup (inFlight (observe tr)).*1) as Hfl.
  { rewrite Hlz in Hnd. apply NoDup_app in Hnd as (_ & _ & Hnd).
    by apply NoDup_app in Hnd as (? & _ & _). }
  assert ((inFlight (observe tr)).*1 ⊆ leased tr) as Hsub.
  { intros t Ht. rewrite Hlz, !elem_of_app. auto. }
  split_and!; try done.
  - apply Forall_forall. intros t Ht. eapply pool_tag_lt; [done|].
    rewrite elem_of_app. auto.
  - lia.
  - rewrite <-(length_fmap fst).
    pose proof (Permutation_length Hlz) as Hl. rewrite !length_app in Hl. lia.
  - intros s' ->%Hend. split; [done|]. intros H4.
    assert (tagFifo s = []) as Hempty by (apply length_zero_iff_nil; lia).
    split; [done|]. intros h Hpc. simpl. unfold request_step.
    by rewrite Hpc, Hempty.
  - intros s0 m evs s1 Hstep Hgrow.
    destruct (pool_moves _ _ _ _ _ Hstep) as [Heq|[(t & Heq & _)|(t & _ & -> & ->)]].
    + rewrite Heq in Hgrow. lia.
    + rewrite Heq in Hgrow. simpl in Hgrow. lia.
    + eauto.
Qed.

Lemma in_flight_bound_witness :
  conformant (observe (trace 1 Sample.recycled)) = true /\
  (inFlight (observe (trace 1 Sample.recycled))).*1 = [0; 1; 3; 2]%N /\
  NoDup (inFlight (observe (trace 1 Sample.recycled))).*1 /\
  NoDup (leased (trace 1 Sample.recycled)) /\
  exists s, final 1 Sample.recycled = Running s /\ tagFifo s = [] /\
            step 1 s ReqStep = Blocked.
Proof.
  assert (conformant (observe (trace 1 Sample.recycled)) = true) as Hok
    by (vm_compute; reflexivity).
  split; [exact Hok|]. split; [vm_compute; reflexivity|].
  destruct (in_flight_bound 1 Sample.recycled Hok)
    as (_ & Hlz & _ & _ & Hnd & _ & _ & _ & _).
  split; [exact Hnd|]. split; [exact Hlz|].
  eexists. split; [vm_compute; reflexivity|].
  split; vm_compute; reflexivity.
Defined.

(** What a response that answers no request in flight does: it puts a
    tag into the pool a second time. *)
Example unasked_response_duplicates_tag :
  conformant (observe (trace 1 Sample.unasked)) = false /\
  exists s, final 1 Sample.unasked = Running s /\ tagFifo s = [1; 2; 3; 3]%N.
Proof. split; [vm_compute; reflexivity|]. eexists. by vm_compute. Qed.

(** C3, against the claim that tags in flight are always distinct and
    at most four: after a response whose tag, 3, is that of no request in
    flight, tag 3 is in the pool twice; five requests are then sent and
    none answered, the last two both with tag 3. *)
Lemma duplicate_tag_in_flight :
  conformant (observe (trace 1 Sample.overdrawn)) = false /\
  upstream_responses (trace 1 Sample.overdrawn) = [Sample.flit 254 0 0 0 8] /\
  (fun h => Data h !!! 3%fin)
    <$> frame_heads true (tagged_requests (trace 1 Sample.overdrawn))
    = [0; 1; 2; 3; 3]%N /\
  (inFlight (observe (trace 1 Sample.overdrawn))).*1 = [0; 1; 2; 3; 3]%N /\
  ~ NoDup (inFlight (observe (trace 1 Sample.overdrawn))).*1 /\
  ~ length (inFlight (observe (trace 1 Sample.overdrawn))) <= 4 /\
  ~ NoDup (leased (trace 1 Sample.overdrawn)).
Proof.
  assert ((inFlight (observe (trace 1 Sample.overdrawn))).*1 = [0; 1; 2; 3; 3]%N)
    as Hfl by (vm_compute; reflexivity).
  assert (leased (trace 1 Sample.overdrawn) = [3; 3; 2; 1; 0]%N)
    as Hlz by (vm_compute; reflexivity).
  split; [vm_compute; reflexivity|]. split; [vm_compute; reflexivity|].
  split; [vm_compute; reflexivity|]. split; [exact Hfl|]. split_and!.
  - rewrite Hfl. intros Hnd. do 3 apply NoDup_cons in Hnd as [_ Hnd].
    apply NoDup_cons in Hnd as [Hnot _]. apply Hnot, list_elem_of_here.
  - rewrite <-(length_fmap fst), Hfl. simpl. lia.
  - rewrite Hlz. intros Hnd. apply NoDup_cons in Hnd as [Hnot _].
    apply Hnot, list_elem_of_here.
Qed.

(** C6: the flits a port manager writes to its tagged-request channel
    are, in order, the flits it read from the upstream request channel,
    where the header of each frame has the port id at offset 2 and the
    tag leased for that frame at offset 3 and all its other bytes and its
    completion code as read, and every other flit of the frame, up to and
    including the one with a nonzero completion code, is as read; when the
    request flow waits for a flit, everything it read has been written. *)
Theorem request_rewriting (p : N) (ms : list move) :
  tagged_requests (trace p ms)
    `prefix_of` tagged_stream p true (leases (trace p ms))
                              (upstream_requests (trace p ms)) /\
  (forall s, final p ms = Running s ->
     reqFlow s = RqRecvHeader \/ reqFlow s = RqRecvBody ->
     tagged_requests (trace p ms)
     = tagged_stream p true (leases (trace p ms)) (upstream_requests (trace p ms))) /\
  (forall (f : Flit64) (t : N) (i : fin 8),
     Data (set_data3 (set_data2 f p) t) !!! 2%fin = p /\
     Data (set_data3 (set_data2 f p) t) !!! 3%fin = t /\
     Eofc (set_data3 (set_data2 f p) t) = Eofc f /\
     (i <> 2%fin -> i <> 3%fin ->
      Data (set_data3 (set_data2 f p) t) !!! i = Data f !!! i)).
Proof.
  unfold trace, final. destruct (run p start ms) as [tr e] eqn:Hrun.
  destruct (run_expect _ _ _ _ _ Hrun) as (rest & Heq & Hrest).
  cbn [fst snd]. simpl in Heq. split_and!.
  - by exists rest.
  - intros s ->%Hrest Hpc. rewrite Heq.
    destruct Hpc as [-> | ->]; simpl; by rewrite app_nil_r.
  - intros f t i. split_and!.
    + by rewrite Data_set_data3_ne, Data_set_data2.
    + by rewrite Data_set_data3.
    + done.
    + intros H2 H3. by rewrite Data_set_data3_ne, Data_set_data2_ne.
Qed.

Example request_rewriting_sample :
  tagged_requests (trace 2 Sample.unasked)
  = [Sample.flit 1 0 2 0 0; Sample.flit 5 5 5 5 8].
Proof. vm_compute. reflexivity. Qed.

(** C7, as the code has it: a port manager never indexes its tag tables
    out of range, whatever the schedule and the flits it is given, as long
    as the byte at offset 3 of every response header is below 4; the tag
    need not be one that was issued. *)
Theorem no_panic_in_range (p : N) (ms : list move) :
  forallb tag_in_range (frame_heads true (tagged_responses (trace p ms))) = true ->
  final p ms <> Panicked.
Proof.
  unfold trace, final. destruct (run p start ms) as [tr e] eqn:Hrun. simpl.
  intros Hall. eapply run_indexable; [apply indexable_start|done|].
  simpl. apply Forall_forall. intros h Hh.
  rewrite forallb_forall in Hall. apply Hall. by apply list_elem_of_In.
Qed.

Lemma no_panic_in_range_witness :
  forallb tag_in_range
          (frame_heads true (tagged_responses (trace 1 Sample.unasked))) = true /\
  final 1 Sample.unasked <> Panicked.
Proof.
  split; [vm_compute; reflexivity|].
  apply (no_panic_in_range 1 Sample.unasked). vm_compute. reflexivity.
Defined.

(** C7, against the claim that no input makes the code fault: a response
    header whose byte at offset 3 is 4 makes the port manager index
    [tagTableLower] out of range. *)
Lemma stray_tag_panics :
  uint8_flit Sample.stray = true /\
  final 1 Sample.stray_response = Panicked.
Proof. split; vm_compute; reflexivity. Qed.

(** * Further properties of the code *)

(** ** Frame buffers *)

Lemma relay_run_app s sched1 sched2 :
  relay_run s (sched1 ++ sched2)
  = match relay_run s sched1 with
    | Some s' => relay_run s' sched2
    | None => None
    end.
Proof.
  revert s. induction sched1 as [|m sched1 IH]; intros s; [done|].
  simpl. by destruct (relay_step s m).
Qed.

Lemma relay_step_buffer s m s' :
  relay_step s m = Some s' -> length (smiBuffer s) <= smiBufferCap ->
  length (smiBuffer s') <= smiBufferCap.
Proof.
  destruct s as [inp buf out ipc epc].
  destruct m; simpl; unfold ingress_step, egress_step; simpl.
  - destruct ipc as [|f|]; [| |done].
    + destruct inp as [|f inp]; [done|]. by intros [= <-].
    + destruct (Nat.ltb_spec (length buf) smiBufferCap); [|done].
      intros [= <-] _. simpl. rewrite length_app. simpl. lia.
  - destruct epc as [|f|]; [| |done].
    + destruct buf as [|f buf]; [done|]. intros [= <-]. simpl. lia.
    + by intros [= <-].
Qed.

Lemma relay_run_buffer s sched s' :
  relay_run s sched = Some s' -> length (smiBuffer s) <= smiBufferCap ->
  length (smiBuffer s') <= smiBufferCap.
Proof.
  revert s. induction sched as [|m sched IH]; simpl; intros s.
  - by intros [= <-].
  - destruct (relay_step s m) as [s1|] eqn:Hstep; [|done].
    intros Hrun Hlen. eapply IH; [done|]. by eapply relay_step_buffer.
Qed.

(** X1: at every point of every schedule of [ForwardFrame64], on any
    input (a well-formed frame or not), the flits written, the flit the
    egress loop holds, the buffer, the flit the ingress goroutine holds
    and the unread input are, put one after the other, the input itself:
    no flit is dropped, duplicated, reordered or changed; and the buffer
    never holds more than 34 flits. *)
Theorem forward_keeps_stream (input : list Flit64) (sched : list flow) (s : relay) :
  relay_run (relay_start input) sched = Some s ->
  smiOutput s ++ out_held s ++ smiBuffer s ++ in_held s ++ smiInput s = input /\
  length (smiBuffer s) <= 34.
Proof.
  intros Hrun. split.
  - destruct (run_inv _ _ _ _ (inv_start input) Hrun) as [Hfl _ _].
    unfold passed in Hfl. by rewrite <-!app_assoc in Hfl.
  - apply (relay_run_buffer _ _ _ Hrun). simpl. unfold smiBufferCap. lia.
Qed.

Lemma forward_keeps_stream_witness :
  (exists s,
      relay_run (relay_start (Sample.burst ++ Sample.trailer))
                [Ingress; Ingress; Ingress; Egress; Ingress; Egress] = Some s /\
      smiOutput s ++ out_held s ++ smiBuffer s ++ in_held s ++ smiInput s
      = Sample.burst ++ Sample.trailer /\
      length (smiBuffer s) = 1).
Proof.
  destruct (relay_run (relay_start (Sample.burst ++ Sample.trailer))
              [Ingress; Ingress; Ingress; Egress; Ingress; Egress])
    as [s|] eqn:Hrun; [|by vm_compute in Hrun].
  exists s. split; [reflexivity|].
  split; [exact (proj1 (forward_keeps_stream _ _ _ Hrun))|].
  vm_compute in Hrun. by injection Hrun as <-.
Defined.


Lemma more_forallb (l : list Flit64) :
  forallb (fun f => (Eofc f =? 0)%N) l = true -> more l.
Proof.
  intros H. apply Forall_forall. intros f Hf.
  rewrite forallb_forall in H. apply N.eqb_eq, H. by apply list_elem_of_In.
Qed.

Lemma fill_more input buf : more input -> fill input buf = None.
Proof.
  intros Hm. revert buf. induction Hm as [|f input Hf _ IH]; intros buf; [done|].
  cbn [fill]. destruct (length buf <? smiBufferCap); [|done].
  rewrite Hf. cbn. apply IH.
Qed.

(** X2: a stream that holds no flit with a nonzero completion code (the
    empty stream for one) is never relayed to the end: [AssembleFrame64]
    blocks in its first loop, and [ForwardFrame64] does not return under
    any schedule, none of which has more than four steps per flit. *)
Theorem open_frame_never_returns (input : list Flit64) :
  forallb (fun f => (Eofc f =? 0)%N) input = true ->
  AssembleFrame64 input = None /\
  (forall sched s,
      relay_run (relay_start input) sched = Some s ->
      returned s = false /\ length sched <= 4 * length input).
Proof.
  intros Hm%more_forallb. split.
  - unfold AssembleFrame64. by rewrite fill_more.
  - intros sched s Hrun. split.
    + destruct (returned s) eqn:Hret; [|done].
      pose proof (run_inv _ _ _ _ (inv_start input) Hrun) as Hs.
      destruct (inv_returned _ _ Hs Hret) as (Hout & -> & _).
      apply Forall_app in Hm as [Hm _]. by destruct (is_frame_not_more _ Hout).
    + pose proof (run_weight _ _ _ Hrun) as Hw.
      unfold weight, relay_start, in_held, out_held in Hw. simpl in Hw. lia.
Qed.

Lemma open_frame_never_returns_witness :
  forallb (fun f => (Eofc f =? 0)%N) Sample2.open_frame = true /\
  AssembleFrame64 Sample2.open_frame = None.
Proof.
  split; [reflexivity|].
  exact (proj1 (open_frame_never_returns Sample2.open_frame eq_refl)).
Defined.

(** X3: on a frame of more than 34 flits the two relays differ:
    [AssembleFrame64] blocks for ever with the buffer full, while
    [ForwardFrame64] has a schedule on which it returns, and whenever it
    returns it has written the whole frame and left the rest unread. *)
Theorem long_frame_only_forward (fr rest : list Flit64) :
  is_frame fr = true -> 34 < length fr ->
  AssembleFrame64 (fr ++ rest) = None /\
  (exists sched s,
      relay_run (relay_start (fr ++ rest)) sched = Some s /\ returned s = true) /\
  (forall sched s,
      relay_run (relay_start (fr ++ rest)) sched = Some s -> returned s = true ->
      smiOutput s = fr /\ smiInput s = rest).
Proof.
  intros Hfr Hlen. split_and!.
  - unfold AssembleFrame64. by rewrite fill_overflow.
  - apply (run_complete fr rest Hfr (4 * length fr)); [apply inv_start|].
    unfold weight, relay_start, in_held, out_held. simpl.
    rewrite length_app. lia.
  - intros sched s Hrun Hret.
    pose proof (run_inv _ _ _ _ (inv_start _) Hrun) as Hs.
    destruct (inv_returned _ _ Hs Hret) as (Hout & Heq & _).
    symmetry in Heq. by destruct (is_frame_unique _ _ _ _ Hout Hfr Heq).
Qed.

Lemma long_frame_only_forward_witness :
  is_frame Sample2.long_frame = true /\ 34 < length Sample2.long_frame /\
  AssembleFrame64 (Sample2.long_frame ++ Sample.trailer) = None.
Proof.
  assert (34 < length Sample2.long_frame) as Hlen by (vm_compute; lia).
  split; [vm_compute; reflexivity|]. split; [exact Hlen|].
  exact (proj1 (long_frame_only_forward Sample2.long_frame Sample.trailer
                  eq_refl Hlen)).
Defined.

Lemma ingress_phase fr rest buf out epc :
  is_frame fr = true -> length buf + length fr <= smiBufferCap ->
  relay_run (mkRelay (fr ++ rest) buf out InRecv epc)
            (replicate (2 * length fr) Ingress)
  = Some (mkRelay rest (buf ++ fr) out InDone epc).
Proof.
  revert buf. induction fr as [|f fr IH]; [done|]. intros buf Hfr Hlen.
  simpl in Hlen.
  replace (2 * length (f :: fr)) with (S (S (2 * length fr))) by (simpl; lia).
  cbn [replicate app]. unfold relay_run at 1. fold relay_run.
  unfold relay_step, ingress_step. cbn [ingress smiInput smiBuffer smiOutput egress].
  destruct (Nat.ltb_spec (length buf) smiBufferCap); [|lia].
  destruct (N.eqb_spec (Eofc f) 0) as [Hf|Hf].
  - rewrite is_frame_cons_more in Hfr by done.
    rewrite IH; [|done|rewrite length_app; simpl; lia].
    by rewrite <-app_assoc.
  - by rewrite (is_frame_cons_last f fr Hf Hfr).
Qed.

Lemma egress_phase fr rest buf out ipc :
  is_frame fr = true ->
  relay_run (mkRelay rest (fr ++ buf) out ipc OutPop)
            (replicate (2 * length fr) Egress)
  = Some (mkRelay rest buf (out ++ fr) ipc OutDone).
Proof.
  revert out. induction fr as [|f fr IH]; [done|]. intros out Hfr.
  replace (2 * length (f :: fr)) with (S (S (2 * length fr))) by (simpl; lia).
  cbn [replicate app]. unfold relay_run at 1. fold relay_run.
  unfold relay_step, egress_step. cbn [ingress smiInput smiBuffer smiOutput egress].
  destruct (N.eqb_spec (Eofc f) 0) as [Hf|Hf].
  - rewrite is_frame_cons_more in Hfr by done.
    rewrite IH by done. by rewrite <-app_assoc.
  - by rewrite (is_frame_cons_last f fr Hf Hfr).
Qed.

Lemma fill_length input buf rest buf' :
  fill input buf = Some (rest, buf') -> length buf' <= smiBufferCap.
Proof.
  revert buf. induction input as [|f input IH]; [done|]. intros buf.
  cbn [fill]. destruct (Nat.ltb_spec (length buf) smiBufferCap); [|done].
  destruct (Eofc f =? 0)%N; [apply IH|].
  intros [= _ <-]. rewrite length_app. simpl. lia.
Qed.

(** X4: whatever [AssembleFrame64] does, [ForwardFrame64] can do: when
    [AssembleFrame64] returns, the two goroutines of [ForwardFrame64] run
    one after the other (the ingress loop to its end, two steps per flit,
    then the egress loop) end with the same output written, the same
    input left unread, the buffer empty and both loops left. *)
Theorem assemble_is_a_forward_schedule (input out rest : list Flit64) :
  AssembleFrame64 input = Some (out, rest) ->
  relay_run (relay_start input)
            (replicate (2 * length out) Ingress ++ replicate (2 * length out) Egress)
  = Some (mkRelay rest [] out InDone OutDone).
Proof.
  intros Hasm. destruct (AssembleFrame64_Some _ _ _ Hasm) as [Hfr ->].
  assert (length out <= smiBufferCap) as Hlen.
  { unfold AssembleFrame64 in Hasm.
    destruct (fill (out ++ rest) []) as [[input' buf]|] eqn:Hfill; [|done].
    pose proof (fill_length _ _ _ _ Hfill) as Hbuf.
    apply fill_Some in Hfill as (fr & Hfr' & Heq & ->).
    destruct (is_frame_unique _ _ _ _ Hfr Hfr' Heq) as [-> _]. done. }
  rewrite relay_run_app. unfold relay_start.
  rewrite (ingress_phase out rest [] [] OutPop Hfr) by (simpl; lia).
  pose proof (egress_phase out rest [] [] InDone Hfr) as Heg.
  rewrite app_nil_r in Heg. exact Heg.
Qed.

Lemma assemble_is_a_forward_schedule_witness :
  AssembleFrame64 (Sample.burst ++ Sample.trailer)
    = Some (Sample.burst, Sample.trailer) /\
  relay_run (relay_start (Sample.burst ++ Sample.trailer))
            (replicate 6 Ingress ++ replicate 6 Egress)
  = Some (mkRelay Sample.trailer [] Sample.burst InDone OutDone).
Proof.
  split; [reflexivity|].
  exact (assemble_is_a_forward_schedule (Sample.burst ++ Sample.trailer)
           Sample.burst Sample.trailer eq_refl).
Defined.

(** ** The arbiters *)

Import ArbiterMore.

Lemma steer_step_out a s f :
  (steer_step a s f).1 = [] \/ exists c, (steer_step a s f).1 = [(c, f)].
Proof.
  unfold steer_step. cbn [fst]. destruct (responseTarget a _); eauto.
Qed.

Lemma steer_run_cons a s f l :
  (steer_run a s (f :: l)).1
  = (steer_step a s f).1 ++ (steer_run a (steer_step a s f).2 l).1.
Proof.
  cbn [steer_run]. destruct (steer_step a s f) as [o1 s1]. cbn [fst snd].
  by destruct (steer_run a s1 l).
Qed.

Lemma wired_target a k c : wired a -> responseTarget a k = Some c -> c ∈ ports a.
Proof. intros [_ Hw] Hk. by apply Hw in Hk as [? _]. Qed.

(** X5: the steering loop of an arbiter hands on flits as they are: on
    any stream, well-framed or not, and from any state, what it writes to
    the tagged-response channels is, in order, a selection of the flits it
    read, none changed, none written twice, and each written to a port the
    arbiter is wired to. *)
Theorem steering_hands_on (a : arbiter) (s : steer) (l : list Flit64) :
  a ∈ arbiters ->
  (steer_run a s l).1.*2 `sublist_of` l /\
  Forall (fun x => x.1 ∈ ports a) (steer_run a s l).1.
Proof.
  intros Ha%wired_arbiters. revert s. induction l as [|f l IH]; intros s.
  - split; [done|by constructor].
  - rewrite steer_run_cons. destruct (IH (steer_step a s f).2) as [Hsub Hall].
    unfold steer_step at 1 3. cbn [fst].
    destruct (responseTarget a _) as [c|] eqn:Hc; simpl.
    + split; [by apply sublist_skip|]. constructor; [|done].
      by eapply wired_target.
    + split; [by apply sublist_cons|done].
Qed.

Lemma steering_hands_on_witness :
  ArbitrateX2 ∈ arbiters /\
  (steer_run ArbitrateX2 steer_start (concat Sample.responses)).1.*2
    `sublist_of` concat Sample.responses.
Proof.
  assert (ArbitrateX2 ∈ arbiters) as Ha by (unfold arbiters; repeat constructor).
  split; [exact Ha|].
  exact (proj1 (steering_hands_on ArbitrateX2 steer_start
                  (concat Sample.responses) Ha)).
Defined.

Lemma steer_run_open a fr k :
  more fr ->
  steer_run a (mkSteer k false) fr = (routed a k fr, mkSteer k false).
Proof.
  induction 1 as [|f fr Hf _ IH]; [unfold routed; by destruct (responseTarget a k)|].
  cbn [steer_run]. unfold steer_step. cbn [isHeaderFlit portId].
  rewrite Hf. cbn [N.eqb negb]. rewrite IH.
  unfold routed. by destruct (responseTarget a k).
Qed.

(** X6: the steering loop does not wait for the end of a frame: after
    any complete frames, the flits of a frame that has started and not yet
    ended are all already written to the port whose id its header carries
    (or dropped, when that is no port's id), and that port has received,
    before them, the complete frames addressed to it. *)
Theorem steering_cut_through (a : arbiter) (frames : list (list Flit64))
    (partial : list Flit64) (c : port) :
  a ∈ arbiters -> c ∈ ports a ->
  forallb is_frame frames = true ->
  forallb (fun f => (Eofc f =? 0)%N) partial = true ->
  delivered c (steer_run a steer_start (concat frames ++ partial)).1
  = concat (filter (fun fr => header_port fr = port_id c) frames)
    ++ (if bool_decide (header_port partial = port_id c) then partial else []).
Proof.
  intros Ha%wired_arbiters Hc Hfrs Hm%more_forallb.
  rewrite steer_run_app. cbn [fst].
  destruct (steer_run_frames a frames steer_start Hfrs eq_refl) as [-> Hhdr].
  rewrite delivered_app, delivered_frames by done.
  rewrite (bool_decide_eq_true_2 (c ∈ ports a)) by done. f_equal.
  destruct partial as [|f partial]; [by case_bool_decide|].
  apply Forall_cons in Hm as [Hf Hm].
  rewrite steer_run_cons. unfold steer_step. rewrite Hhdr. cbn [fst snd].
  rewrite Hf. cbn [N.eqb negb]. rewrite steer_run_open by done.
  cbn [header_port fst].
  change (match responseTarget a (Data f !!! 2%fin) with
          | Some c0 => [(c0, f)] | None => [] end)
    with (match responseTarget a (Data f !!! 2%fin) with
          | Some c0 => (fun g => (c0, g)) <$> [f] | None => [] end).
  fold (routed a (Data f !!! 2%fin) [f]).
  rewrite delivered_app, !delivered_routed by done.
  destruct (decide (Data f !!! 2%fin = port_id c)) as [Hk|Hk].
  - by rewrite !bool_decide_eq_true_2 by done.
  - rewrite (bool_decide_eq_false_2 (Data f !!! 2%fin = port_id c)) by done.
    by rewrite !bool_decide_eq_false_2 by (by intros [_ ?]).
Qed.

Lemma steering_cut_through_witness :
  ArbitrateX4 ∈ arbiters /\ PortA ∈ ports ArbitrateX4 /\
  forallb is_frame Sample.responses = true /\
  forallb (fun f => (Eofc f =? 0)%N) Sample2.partial = true /\
  delivered PortA
    (steer_run ArbitrateX4 steer_start (concat Sample.responses ++ Sample2.partial)).1
  = [Sample.flit 254 0 1 2 8; Sample.flit 253 0 1 3 0; Sample.flit 9 9 9 9 0].
Proof.
  assert (ArbitrateX4 ∈ arbiters) as Ha by (unfold arbiters; repeat constructor).
  assert (PortA ∈ ports ArbitrateX4) as Hc by (simpl; repeat constructor).
  split; [exact Ha|]. split; [exact Hc|].
  split; [reflexivity|]. split; [reflexivity|].
  rewrite (steering_cut_through ArbitrateX4 Sample.responses Sample2.partial PortA
             Ha Hc eq_refl eq_refl).
  vm_compute. reflexivity.
Defined.

Lemma requestSource_port a k : a ∈ arbiters -> requestSource a k ∈ ports a.
Proof.
  unfold arbiters. rewrite !elem_of_cons, elem_of_nil.
  intros [->|[->|[->|[]]]]; case_port_id k; simpl; repeat constructor.
Qed.

Lemma arbitrate_run_offered a ms pc out pc' :
  arbitrate_run a pc ms = Some (out, pc') -> out = offered ms.
Proof.
  revert pc out. induction ms as [|m ms IH]; intros pc out; simpl.
  - by intros [= <- <-].
  - destruct (arbitrate_step a pc m) as [[o1 pc1]|] eqn:Hstep; [|done].
    destruct (arbitrate_run a pc1 ms) as [[o2 pc2]|] eqn:Hrun; [|done].
    intros [= <- <-]. rewrite <-(IH _ _ Hrun).
    destruct pc as [|k], m as [c k'|c f]; simpl in Hstep; try done.
    + destruct (decide (c ∈ ports a)); [|done]. by injection Hstep as <- <-.
    + destruct (decide (c = requestSource a k)); [|done].
      by injection Hstep as <- <-.
Qed.

Lemma arbitrate_run_sources a ms pc out pc' :
  a ∈ arbiters ->
  arbitrate_run a pc ms = Some (out, pc') -> Forall (fun x => x.1 ∈ ports a) out.
Proof.
  intros Ha. revert pc out. induction ms as [|m ms IH]; intros pc out; simpl.
  - intros [= <- <-]. constructor.
  - destruct (arbitrate_step a pc m) as [[o1 pc1]|] eqn:Hstep; [|done].
    destruct (arbitrate_run a pc1 ms) as [[o2 pc2]|] eqn:Hrun; [|done].
    intros [= <- <-]. apply Forall_app. split; [|by eapply IH].
    destruct pc as [|k], m as [c k'|c f]; simpl in Hstep; try done.
    + destruct (decide (c ∈ ports a)); [|done]. injection Hstep as <- <-.
      constructor.
    + destruct (decide (c = requestSource a k)) as [->|]; [|done].
      injection Hstep as <- <-. repeat constructor. by apply requestSource_port.
Qed.

Lemma arbitrate_run_count a ms pc b out pc' :
  arbitrate_run a pc ms = Some (out, pc') ->
  (pc = ReqSelect -> b = true) ->
  length (selections ms) + pending pc b
  = length (frame_heads b out.*2) + pending pc' (end_flag b out.*2) /\
  (pc' = ReqSelect -> end_flag b out.*2 = true).
Proof.
  revert pc b out. induction ms as [|m ms IH]; intros pc b out; simpl.
  - intros [= <- <-] Hb. by split.
  - destruct (arbitrate_step a pc m) as [[o1 pc1]|] eqn:Hstep; [|done].
    destruct (arbitrate_run a pc1 ms) as [[o2 pc2]|] eqn:Hrun; [|done].
    intros [= <- <-] Hb.
    destruct pc as [|k], m as [c k'|c f]; simpl in Hstep; try done.
    + destruct (decide (c ∈ ports a)); [|done]. injection Hstep as <- <-.
      rewrite (Hb eq_refl). simpl.
      destruct (IH (ReqCopy k') true o2 Hrun) as [Hn Hend]; [done|].
      simpl in Hn. split; [lia|done].
    + destruct (decide (c = requestSource a k)) as [->|]; [|done].
      injection Hstep as <- <-.
      change (([(requestSource a k, f)] ++ o2).*2) with (f :: o2.*2).
      cbn [frame_heads end_flag selections omap].
      destruct (IH _ (negb (Eofc f =? 0)%N) o2 Hrun) as [Hn Hend].
      { by destruct (Eofc f =? 0)%N. }
      split; [|done]. rewrite length_app. fold (selections ms).
      destruct b, (Eofc f =? 0)%N; simpl in *; lia.
Qed.

(** X7: the arbitration goroutine of an arbiter writes to the downstream
    request channel exactly the flits the tagged-request channels handed
    to it, unchanged and in order, each read from a port the arbiter is
    wired to (a port id that is no port's id is served from the last
    port); and it takes one transfer request per frame: the transfer
    requests taken are as many as the frames started downstream, or one
    more when a request has been taken and its frame not yet started, and
    as many when the goroutine is back at its [select]. *)
Theorem arbitration_forwards (a : arbiter) (ms : list arbitrate_move)
    (out : list (port * Flit64)) (pc : arbitrate_pc) :
  a ∈ arbiters ->
  arbitrate_run a ReqSelect ms = Some (out, pc) ->
  out = offered ms /\
  Forall (fun x => x.1 ∈ ports a) out /\
  length (frame_heads true out.*2) <= length (selections ms)
    <= length (frame_heads true out.*2) + 1 /\
  (pc = ReqSelect -> length (selections ms) = length (frame_heads true out.*2)).
Proof.
  intros Ha Hrun.
  destruct (arbitrate_run_count a ms ReqSelect true out pc Hrun) as [Hn Hend];
    [done|].
  simpl in Hn. split_and!.
  - by eapply arbitrate_run_offered.
  - by eapply arbitrate_run_sources.
  - lia.
  - destruct pc as [|k]; simpl in Hn; destruct (end_flag true out.*2); lia.
  - intros ->. simpl in Hn. lia.
Qed.

Lemma arbitration_forwards_witness :
  ArbitrateX3 ∈ arbiters /\
  arbitrate_run ArbitrateX3 ReqSelect Sample.arbitration
    = Some (Sample.arbitrated, ReqSelect) /\
  Sample.arbitrated = offered Sample.arbitration /\
  length (selections Sample.arbitration) = 2.
Proof.
  assert (ArbitrateX3 ∈ arbiters) as Ha by (unfold arbiters; repeat constructor).
  split; [exact Ha|]. split; [reflexivity|].
  split; [|reflexivity].
  exact (proj1 (arbitration_forwards ArbitrateX3 Sample.arbitration
                  Sample.arbitrated ReqSelect Ha eq_refl)).
Defined.

(** ** The port manager *)

Import PortManagerMore.

Lemma set_data2_twice f a b : set_data2 (set_data2 f a) b = set_data2 f b.
Proof.
  unfold set_data2. cbn [Data Eofc]. f_equal. apply vec_eq. intros i.
  destruct (decide (i = 2%fin)) as [->|Hi].
  - by rewrite !vlookup_insert.
  - by rewrite !vlookup_insert_ne.
Qed.

Lemma set_data3_twice f a b : set_data3 (set_data3 f a) b = set_data3 f b.
Proof.
  unfold set_data3. cbn [Data Eofc]. f_equal. apply vec_eq. intros i.
  destruct (decide (i = 3%fin)) as [->|Hi].
  - by rewrite !vlookup_insert.
  - by rewrite !vlookup_insert_ne.
Qed.

Lemma set_data23_swap f a b :
  set_data2 (set_data3 f b) a = set_data3 (set_data2 f a) b.
Proof.
  unfold set_data2, set_data3. cbn [Data Eofc]. f_equal. apply vec_eq. intros i.
  destruct (decide (i = 2%fin)) as [->|H2].
  - rewrite vlookup_insert, vlookup_insert_ne by done. by rewrite vlookup_insert.
  - rewrite vlookup_insert_ne by done.
    destruct (decide (i = 3%fin)) as [->|H3].
    + by rewrite !vlookup_insert.
    + by rewrite !vlookup_insert_ne.
Qed.

Lemma blank23_set_data2 f a : blank23 (set_data2 f a) = blank23 f.
Proof. unfold blank23. by rewrite set_data2_twice. Qed.

Lemma blank23_set_data3 f b : blank23 (set_data3 f b) = blank23 f.
Proof. unfold blank23. by rewrite set_data23_swap, set_data3_twice. Qed.

Lemma request_step_quiet p s input evs s1 :
  request_step p s input = Next evs s1 ->
  respFlow s1 = respFlow s /\ tagged_responses evs = [] /\
  upstream_responses evs = [] /\ releases evs = [].
Proof.
  destruct s as [lower upper fifo rq rs]. unfold request_step. simpl.
  destruct rq as [|h|h t|h t|h|h| |b], input as [f|]; simpl; try done;
    repeat case_match; try done; by intros [= <- <-].
Qed.

Lemma response_step_quiet s input evs s1 :
  response_step s input = Next evs s1 ->
  reqFlow s1 = reqFlow s /\ tagged_requests evs = [] /\
  upstream_requests evs = [] /\ leases evs = [] /\ transfers evs = [].
Proof.
  destruct s as [lower upper fifo rq rs]. unfold response_step. simpl.
  destruct rs as [|h t|h t|h t|h| |b], input as [f|]; simpl; try done;
    repeat case_match; try done; by intros [= <- <-].
Qed.

Lemma response_step_blank s input evs s1 ins outs :
  response_step s input = Next evs s1 ->
  exists pre,
    resp_expect (respFlow s) (tagged_responses evs ++ ins)
    = pre ++ resp_expect (respFlow s1) ins /\
    blank_heads (resp_out_header (respFlow s)) (upstream_responses evs ++ outs)
    = pre ++ blank_heads (resp_out_header (respFlow s1)) outs.
Proof.
  destruct s as [lower upper fifo rq rs]. unfold response_step. simpl.
  destruct rs as [|h t|h t|h t|h| |b], input as [f|]; simpl; try done.
  - intros [= <- <-]. by exists [].
  - destruct (lower !! N.to_nat t); [|done]. intros [= <- <-]. exists []. simpl.
    by rewrite blank23_set_data2.
  - destruct (upper !! N.to_nat t); [|done]. intros [= <- <-]. exists []. simpl.
    by rewrite blank23_set_data3.
  - destruct (length fifo <? tagFifoCap); [|done]. intros [= <- <-]. by exists [].
  - intros [= <- <-]. exists [blank23 h]. simpl. unfold resp_next.
    by destruct (Eofc h =? 0)%N.
  - intros [= <- <-]. by exists [].
  - intros [= <- <-]. exists [b]. simpl. unfold resp_next.
    by destruct (Eofc b =? 0)%N.
Qed.

Lemma run_blank p ms s tr e :
  run p s ms = (tr, e) ->
  exists rest,
    resp_expect (respFlow s) (tagged_responses tr)
    = blank_heads (resp_out_header (respFlow s)) (upstream_responses tr) ++ rest /\
    (forall s', e = Running s' -> rest = resp_expect (respFlow s') []).
Proof.
  revert s tr e. induction ms as [|m ms IH]; intros s tr e; simpl.
  - intros [= <- <-]. exists (resp_expect (respFlow s) []).
    split; [done|]. by intros ? [= <-].
  - destruct (step p s m) as [evs s1| |] eqn:Hstep.
    + destruct (run p s1 ms) as [tr' e'] eqn:Hrun. intros [= <- <-].
      destruct (IH _ _ _ Hrun) as (rest & Heq & Hrest). exists rest.
      split; [|done]. unfold tagged_responses, upstream_responses.
      rewrite !omap_app. fold (tagged_responses evs) (tagged_responses tr').
      fold (upstream_responses evs) (upstream_responses tr').
      destruct m as [|f| |f]; simpl in Hstep.
      1,2: apply request_step_quiet in Hstep as (<- & -> & -> & _); by simpl.
      all: destruct (response_step_blank _ _ _ _ (tagged_responses tr')
                       (upstream_responses tr') Hstep) as (pre & -> & ->);
        by rewrite Heq, app_assoc.
    + intros [= <- <-]. by eexists.
    + intros [= <- <-]. by eexists.
Qed.

(** X8: apart from bytes 2 and 3 of frame headers, the response flow of
    a port manager hands on what it receives: the flits written to the
    upstream response channel are, in order, the flits read from the
    tagged-response channel with the same completion codes, bodies
    unchanged and headers changed at offsets 2 and 3 at most; whenever the
    flow waits for a flit, everything it received has been written.  This
    holds for every schedule and every input, conforming or not. *)
Theorem response_forwarding (p : N) (ms : list move) :
  blank_heads true (upstream_responses (trace p ms))
    `prefix_of` blank_heads true (tagged_responses (trace p ms)) /\
  (forall s, final p ms = Running s ->
     respFlow s = RsRecvHeader \/ respFlow s = RsRecvBody ->
     blank_heads true (upstream_responses (trace p ms))
     = blank_heads true (tagged_responses (trace p ms))) /\
  (forall (f : Flit64) (i : fin 8),
     Eofc (blank23 f) = Eofc f /\
     (i <> 2%fin -> i <> 3%fin -> Data (blank23 f) !!! i = Data f !!! i)).
Proof.
  unfold trace, final. destruct (run p start ms) as [tr e] eqn:Hrun.
  destruct (run_blank _ _ _ _ _ Hrun) as (rest & Heq & Hrest).
  cbn [fst snd]. simpl in Heq. split_and!.
  - by exists rest.
  - intros s ->%Hrest Hpc. rewrite Heq.
    destruct Hpc as [-> | ->]; simpl; by rewrite app_nil_r.
  - intros f i. split; [done|]. intros H2 H3. unfold blank23.
    by rewrite Data_set_data3_ne, Data_set_data2_ne.
Qed.

Example response_forwarding_sample :
  upstream_responses (trace 1 Sample.four_in_flight)
  = [Sample.flit 253 0 162 178 8; Sample.flit 253 0 160 176 8;
     Sample.flit 254 0 163 179 8; Sample.flit 254 0 161 177 8].
Proof. vm_compute. reflexivity. Qed.

Lemma step_pool p s m evs s1 :
  step p s m = Next evs s1 ->
  leases evs ++ tagFifo s1 = tagFifo s ++ releases evs.
Proof.
  destruct s as [lower upper fifo rq rs].
  destruct m as [|f| |f]; simpl; unfold request_step, response_step; simpl.
  - destruct rq as [|h|h t|h t|h|h| |b]; try done;
      repeat case_match; try done; intros [= <- <-]; simpl;
      by rewrite ?app_nil_r.
  - destruct rq as [|h|h t|h t|h|h| |b]; try done; intros [= <- <-]; simpl;
      by rewrite ?app_nil_r.
  - destruct rs as [|h t|h t|h t|h| |b]; try done;
      repeat case_match; try done; intros [= <- <-]; simpl;
      by rewrite ?app_nil_r.
  - destruct rs as [|h t|h t|h t|h| |b]; try done; intros [= <- <-]; simpl;
      by rewrite ?app_nil_r.
Qed.

Lemma run_pool p ms s tr e :
  run p s ms = (tr, e) ->
  exists fifo,
    leases tr ++ fifo = tagFifo s ++ releases tr /\
    (forall s', e = Running s' -> fifo = tagFifo s').
Proof.
  revert s tr e. induction ms as [|m ms IH]; intros s tr e; simpl.
  - intros [= <- <-]. exists (tagFifo s). simpl. rewrite app_nil_r.
    split; [done|]. by intros ? [= <-].
  - destruct (step p s m) as [evs s1| |] eqn:Hstep.
    + destruct (run p s1 ms) as [tr' e'] eqn:Hrun. intros [= <- <-].
      destruct (IH _ _ _ Hrun) as (fifo & Heq & Hfifo). exists fifo.
      split; [|done]. unfold leases, releases. rewrite !omap_app.
      fold (leases evs) (leases tr') (releases evs) (releases tr').
      rewrite <-app_assoc, Heq, !app_assoc. f_equal. by eapply step_pool.
    + intros [= <- <-]. exists (tagFifo s). simpl. by rewrite app_nil_r.
    + intros [= <- <-]. exists (tagFifo s). simpl. by rewrite app_nil_r.
Qed.

(** X9: the tag pool of a port manager is first in, first out, whatever
    the responses: the tags leased so far followed by the tags in the pool
    are the tags 0, 1, 2, 3 followed by the tags released so far, so that
    requests get the tags 0 to 3 in this order and after them the tags in
    the order in which responses gave them back. *)
Theorem pool_is_fifo (p : N) (ms : list move) :
  leases (trace p ms) `prefix_of` [0; 1; 2; 3]%N ++ releases (trace p ms) /\
  (forall s, final p ms = Running s ->
     leases (trace p ms) ++ tagFifo s = [0; 1; 2; 3]%N ++ releases (trace p ms)).
Proof.
  unfold trace, final. destruct (run p start ms) as [tr e] eqn:Hrun.
  destruct (run_pool _ _ _ _ _ Hrun) as (fifo & Heq & Hfifo).
  cbn [fst snd]. change (tagFifo start) with [0; 1; 2; 3]%N in Heq. split.
  - by exists fifo.
  - by intros s <-%Hfifo.
Qed.

Example pool_is_fifo_sample :
  leases (trace 1 (Sample.four_in_flight ++ Sample.request (Sample.flit 1 0 9 9 8)
                   ++ Sample.request (Sample.flit 1 0 9 9 8)))
  = [0; 1; 2; 3; 2; 0]%N.
Proof. vm_compute. reflexivity. Qed.

Lemma request_step_counts p s input evs s1 outs :
  request_step p s input = Next evs s1 ->
  Forall (fun k => k = p) (transfers evs) /\
  length (leases evs) + req_leased (reqFlow s)
    + length (frame_heads (req_out_header (reqFlow s1)) outs)
  = length (frame_heads (req_out_header (reqFlow s)) (tagged_requests evs ++ outs))
    + req_leased (reqFlow s1) /\
  length (transfers evs) + req_signalled (reqFlow s)
    + length (frame_heads (req_out_header (reqFlow s1)) outs)
  = length (frame_heads (req_out_header (reqFlow s)) (tagged_requests evs ++ outs))
    + req_signalled (reqFlow s1).
Proof.
  destruct s as [lower upper fifo rq rs]. unfold request_step. simpl.
  destruct rq as [|h|h t|h t|h|h| |b], input as [f|]; simpl; try done;
    repeat case_match; try done; intros [= <- <-]; simpl;
    rewrite ?length_app; unfold req_next;
    repeat case_match; simpl;
    (split_and!; [by repeat constructor|lia..]).
Qed.

Lemma response_step_counts s input evs s1 ins :
  response_step s input = Next evs s1 ->
  length (releases evs) + resp_unreleased (respFlow s1)
    + length (frame_heads (resp_header_next (respFlow s1)) ins)
  = length (frame_heads (resp_header_next (respFlow s)) (tagged_responses evs ++ ins))
    + resp_unreleased (respFlow s).
Proof.
  destruct s as [lower upper fifo rq rs]. unfold response_step. simpl.
  destruct rs as [|h t|h t|h t|h| |b], input as [f|]; simpl; try done;
    repeat case_match; try done; intros [= <- <-]; simpl;
    unfold resp_next; repeat case_match; simpl; lia.
Qed.

(** Counting along a run: with what the flows have under way at the end,
    leases and transfer requests match the request headers sent, and
    releases match the response headers received. *)
Lemma run_counts p ms s tr e :
  run p s ms = (tr, e) ->
  exists ql qs qr,
    ql <= 1 /\ qs <= 1 /\ qr <= 1 /\
    Forall (fun k => k = p) (transfers tr) /\
    length (leases tr) + req_leased (reqFlow s)
    = length (frame_heads (req_out_header (reqFlow s)) (tagged_requests tr)) + ql /\
    length (transfers tr) + req_signalled (reqFlow s)
    = length (frame_heads (req_out_header (reqFlow s)) (tagged_requests tr)) + qs /\
    length (releases tr) + qr
    = length (frame_heads (resp_header_next (respFlow s)) (tagged_responses tr))
      + resp_unreleased (respFlow s) /\
    (forall s', e = Running s' ->
       ql = req_leased (reqFlow s') /\ qs = req_signalled (reqFlow s') /\
       qr = resp_unreleased (respFlow s')).
Proof.
  revert s tr e. induction ms as [|m ms IH]; intros s tr e; simpl.
  - intros [= <- <-].
    exists (req_leased (reqFlow s)), (req_signalled (reqFlow s)),
           (resp_unreleased (respFlow s)).
    simpl. split_and!; try done.
    + destruct (reqFlow s); simpl; lia.
    + destruct (reqFlow s); simpl; lia.
    + destruct (respFlow s); simpl; lia.
    + by intros ? [= <-].
  - destruct (step p s m) as [evs s1| |] eqn:Hstep.
    + destruct (run p s1 ms) as [tr' e'] eqn:Hrun. intros [= <- <-].
      destruct (IH _ _ _ Hrun)
        as (ql & qs & qr & Hql & Hqs & Hqr & Hall & Hl & Ht & Hr & Hend).
      exists ql, qs, qr.
      unfold leases, transfers, releases, tagged_requests, tagged_responses.
      rewrite !omap_app.
      fold (leases evs) (leases tr') (transfers evs) (transfers tr')
           (releases evs) (releases tr') (tagged_requests evs)
           (tagged_requests tr') (tagged_responses evs) (tagged_responses tr').
      rewrite !length_app.
      destruct m as [|f| |f]; simpl in Hstep.
      1,2: destruct (request_step_counts _ _ _ _ _ (tagged_requests tr') Hstep)
             as (Hp & Hcl & Hct);
           apply request_step_quiet in Hstep as (Hrs & -> & _ & ->);
           rewrite Hrs in Hr; simpl;
           split_and!; try done; [by apply Forall_app|lia..].
      all: pose proof (response_step_counts _ _ _ _ (tagged_responses tr') Hstep)
             as Hcr;
           apply response_step_quiet in Hstep as (Hrq & -> & _ & -> & ->);
           rewrite Hrq in Hl, Ht; simpl;
           split_and!; try done; lia.
    + intros [= <- <-].
      exists (req_leased (reqFlow s)), (req_signalled (reqFlow s)),
             (resp_unreleased (respFlow s)).
      simpl. split_and!; try done.
      * destruct (reqFlow s); simpl; lia.
      * destruct (reqFlow s); simpl; lia.
      * destruct (respFlow s); simpl; lia.
    + intros [= <- <-].
      exists (req_leased (reqFlow s)), (req_signalled (reqFlow s)),
             (resp_unreleased (respFlow s)).
      simpl. split_and!; try done.
      * destruct (reqFlow s); simpl; lia.
      * destruct (reqFlow s); simpl; lia.
      * destruct (respFlow s); simpl; lia.
Qed.

(** X10: whatever the responses, conforming or not, a port manager never
    runs ahead of them by more than four requests: the frame headers it
    has written to the tagged-request channel are at most as many as the
    tags it has leased, these at most four more than the tags released,
    and these at most as many as the frame headers it has read from the
    tagged-response channel. *)
Theorem request_window (p : N) (ms : list move) :
  length (frame_heads true (tagged_requests (trace p ms)))
    <= length (leases (trace p ms)) /\
  length (leases (trace p ms)) <= 4 + length (releases (trace p ms)) /\
  length (releases (trace p ms))
    <= length (frame_heads true (tagged_responses (trace p ms))) /\
  length (frame_heads true (tagged_requests (trace p ms)))
    <= 4 + length (frame_heads true (tagged_responses (trace p ms))).
Proof.
  unfold trace. destruct (run p start ms) as [tr e] eqn:Hrun. cbn [fst].
  destruct (run_counts _ _ _ _ _ Hrun)
    as (ql & qs & qr & Hql & Hqs & Hqr & _ & Hl & _ & Hr & _).
  destruct (run_pool _ _ _ _ _ Hrun) as (fifo & Heq & _).
  apply (f_equal length) in Heq. rewrite !length_app in Heq.
  simpl in Hl, Hr, Heq. lia.
Qed.

(** X11: the request flow of a port manager announces every frame once,
    with its own port id, before the header: every value written to the
    transfer-request channel is the port id, the values written are as
    many as the frame headers written to the tagged-request channel, or
    one more exactly when a header is announced and not yet written. *)
Theorem transfer_request_per_frame (p : N) (ms : list move) :
  Forall (fun k => k = p) (transfers (trace p ms)) /\
  length (frame_heads true (tagged_requests (trace p ms)))
    <= length (transfers (trace p ms))
    <= length (frame_heads true (tagged_requests (trace p ms))) + 1 /\
  (forall s, final p ms = Running s ->
     length (transfers (trace p ms))
     = length (frame_heads true (tagged_requests (trace p ms)))
       + req_signalled (reqFlow s)).
Proof.
  unfold trace, final. destruct (run p start ms) as [tr e] eqn:Hrun.
  cbn [fst snd].
  destruct (run_counts _ _ _ _ _ Hrun)
    as (ql & qs & qr & Hql & Hqs & Hqr & Hall & _ & Ht & _ & Hend).
  simpl in Ht. split_and!; [done|lia|lia|].
  intros s Hs. destruct (Hend s Hs) as (_ & <- & _). lia.
Qed.

Example transfer_request_per_frame_sample :
  transfers (trace 3 Sample.fifth_request) = [3; 3; 3; 3]%N.
Proof. vm_compute. reflexivity. Qed.

(** X12: responses that conform, each header bringing back the tag of a
    request in flight, never stop a port manager: no schedule ends in a
    panic, and the response flow can always take its next step unless it
    is waiting for a flit; in particular its table lookups are in range
    and the pool has room for the tag it gives back. *)
Theorem conforming_responses_are_safe (p : N) (ms : list move) :
  conformant (observe (trace p ms)) = true ->
  final p ms <> Panicked /\
  (forall s, final p ms = Running s ->
     respFlow s <> RsRecvHeader -> respFlow s <> RsRecvBody ->
     exists evs s', step p s RespStep = Next evs s').
Proof.
  intros Hok. unfold trace, final in *.
  destruct (run p start ms) as [tr e] eqn:Hrun. cbn [fst snd] in *.
  destruct (run_linked p ms start observe_start [] tr e linked_start Hrun Hok)
    as (Hsafe & s & Hs & Hend).
  split; [done|]. intros s' ->%Hend Hh Hb.
  pose proof (step_linked_safe p s RespStep _ _ Hs) as Hnp.
  destruct (step p s RespStep) as [evs s1| |] eqn:Hstep; [by eauto| |done].
  exfalso. destruct Hs as [Hpool _ _ _ _ _ _ _].
  destruct s as [lower upper fifo rq rs]. simpl in *.
  unfold response_step in Hstep. simpl in Hstep.
  destruct rs as [|h t|h t|h t|h| |b]; try done.
  - by destruct (lower !! N.to_nat t).
  - by destruct (upper !! N.to_nat t).
  - apply Permutation_length in Hpool. rewrite !length_app in Hpool.
    simpl in Hpool.
    destruct (Nat.ltb_spec (length fifo) tagFifoCap) as [|Hfull]; [done|].
    unfold tagFifoCap in Hfull. lia.
Qed.

Lemma conforming_responses_are_safe_witness :
  conformant (observe (trace 1 Sample2.answering)) = true /\
  exists s, final 1 Sample2.answering = Running s /\
            respFlow s <> RsRecvHeader /\ respFlow s <> RsRecvBody /\
            exists evs s', step 1 s RespStep = Next evs s'.
Proof.
  assert (conformant (observe (trace 1 Sample2.answering)) = true) as Hok
    by (vm_compute; reflexivity).
  split; [exact Hok|].
  destruct (final 1 Sample2.answering) as [s| |] eqn:Hfin;
    [|by vm_compute in Hfin..].
  exists s.
  assert (respFlow s <> RsRecvHeader /\ respFlow s <> RsRecvBody) as [Hh Hb]
    by (vm_compute in Hfin; injection Hfin as <-; by split).
  split; [reflexivity|]. split; [exact Hh|]. split; [exact Hb|].
  exact (proj2 (conforming_responses_are_safe 1 Sample2.answering Hok) s Hfin Hh Hb).
Defined.

(** ** An arbiter as wired *)

Import Wiring.

Lemma put_eq {A} c (v : A) g : put c v g c = v.
Proof. unfold put. by rewrite decide_True. Qed.

Lemma put_ne {A} c c' (v : A) g : c' <> c -> put c v g c' = g c'.
Proof. intros. unfold put. by rewrite decide_False. Qed.

Lemma run_Next p s m ms evs s' :
  step p s m = Next evs s' ->
  run p s (m :: ms) = (evs ++ (run p s' ms).1, (run p s' ms).2).
Proof. intros Hstep. simpl. rewrite Hstep. by destruct (run p s' ms). Qed.

Lemma step_tagged_responses p s m evs s' :
  step p s m = Next evs s' ->
  tagged_responses evs = match m with RespRecv f => [f] | _ => [] end.
Proof.
  destruct s as [lower upper fifo rq rs].
  destruct m as [|f| |f]; simpl; unfold request_step, response_step; simpl.
  - destruct rq as [|h|h t|h t|h|h| |b]; try done;
      repeat case_match; try done; by intros [= <- <-].
  - destruct rq as [|h|h t|h t|h|h| |b]; try done; by intros [= <- <-].
  - destruct rs as [|h t|h t|h t|h| |b]; try done;
      repeat case_match; try done; by intros [= <- <-].
  - destruct rs as [|h t|h t|h t|h| |b]; try done; by intros [= <- <-].
Qed.

Lemma manage_Go a s c m resp acts s1 :
  manage a s c m resp = Go acts s1 ->
  c ∈ ports a /\ acts = [Managed c m] /\
  exists evs st,
    step (port_id c) (managers s c) m = Next evs st /\
    s1 = mkSystem (put c st (managers s))
                  (put c (transferReq s c ++ transfers evs) (transferReq s))
                  (put c (taggedRequest s c ++ tagged_requests evs) (taggedRequest s))
                  (put c resp (taggedResponse s))
                  (arbitration s) (steering s) (held s).
Proof.
  unfold manage. destruct (decide (c ∈ ports a)); [|done].
  destruct (step (port_id c) (managers s c) m) as [evs st| |] eqn:Hstep; [|done..].
  case_match; [|done]. intros [= <- <-]. eauto 10.
Qed.

Lemma manager_moves_cons c x log :
  manager_moves c (x :: log)
  = match x with
    | Managed c' m =>
        if decide (c' = c) then m :: manager_moves c log else manager_moves c log
    | _ => manager_moves c log
    end.
Proof. destruct x; try done. unfold manager_moves. simpl. by case_decide. Qed.

Lemma passed_cons c x log :
  passed c (x :: log)
  = match x with
    | Passed c' f => if decide (c' = c) then f :: passed c log else passed c log
    | _ => passed c log
    end.
Proof. destruct x; try done. unfold passed. simpl. by case_decide. Qed.

Lemma arbiter_moves_cons x log :
  arbiter_moves (x :: log)
  = match x with Arbitrated m => m :: arbiter_moves log | _ => arbiter_moves log end.
Proof. by destruct x. Qed.

Lemma steer_inputs_cons x log :
  steer_inputs (x :: log)
  = match x with Steered f => f :: steer_inputs log | _ => steer_inputs log end.
Proof. by destruct x. Qed.

Lemma selected_cons c m ms :
  selected c (m :: ms)
  = match m with
    | Ready c' k => if decide (c' = c) then k :: selected c ms else selected c ms
    | _ => selected c ms
    end.
Proof. destruct m; try done. unfold selected. simpl. by case_decide. Qed.

Lemma delivered_cons c x out :
  delivered c (x :: out)
  = if decide (x.1 = c) then x.2 :: delivered c out else delivered c out.
Proof.
  destruct x as [c' f]. unfold delivered. rewrite filter_cons. simpl.
  by case_decide.
Qed.

Lemma offered_cons m ms :
  offered (m :: ms)
  = match m with Deliver c f => (c, f) :: offered ms | _ => offered ms end.
Proof. by destruct m. Qed.

Ltac read_log :=
  cbn [app];
  rewrite ?manager_moves_cons, ?passed_cons, ?arbiter_moves_cons,
    ?steer_inputs_cons, ?offered_cons, ?selected_cons, ?delivered_cons;
  cbv beta iota.

(** A move of the manager of port [c] that leaves [resp] in its
    tagged-response channel, having taken [took] from it. *)
Lemma manage_joined a s0 c m resp took acts s1 s log :
  manage a s0 c m resp = Go acts s1 ->
  taggedResponse s0 c = took ++ resp ->
  took = match m with RespRecv f => [f] | _ => [] end ->
  loops_joined a s1 s log -> (forall c', port_joined a s1 s log c') ->
  loops_joined a s0 s (acts ++ log) /\
  (forall c', port_joined a s0 s (acts ++ log) c').
Proof.
  intros (Hc & -> & evs & st & Hstep & ->)%manage_Go Hresp Htook Hloops Hports.
  split; [exact Hloops|]. intros c'. specialize (Hports c').
  unfold port_joined, held_for in *. read_log.
  cbn [managers transferReq taggedRequest taggedResponse steering held
       arbitration] in *.
  destruct (decide (c = c')) as [<-|Hne].
  - rewrite !put_eq in Hports.
    rewrite (run_Next _ _ _ _ _ _ Hstep). cbn [fst snd].
    unfold transfers, tagged_requests, tagged_responses in *.
    rewrite !omap_app.
    fold (tagged_responses evs). rewrite (step_tagged_responses _ _ _ _ _ Hstep).
    rewrite <-Htook, Hresp.
    destruct Hports as (H1 & H2 & H3 & H4 & H5).
    split_and!; try done.
    + by rewrite app_assoc.
    + by rewrite app_assoc.
    + rewrite <-!app_assoc. by f_equal.
  - by rewrite !put_ne in Hports by done.
Qed.

Lemma arbitrate_run_step a pc m ms o pc1 pc2 :
  arbitrate_step a pc m = Some (o, pc1) ->
  arbitrate_run a pc1 ms = Some (offered ms, pc2) ->
  arbitrate_run a pc (m :: ms) = Some (offered (m :: ms), pc2).
Proof.
  intros Hstep Hrun.
  destruct (arbitrate_run a pc (m :: ms)) as [[o' pc']|] eqn:Hall.
  - rewrite (arbitrate_run_offered _ _ _ _ _ Hall). f_equal. f_equal.
    simpl in Hall. rewrite Hstep, Hrun in Hall. by injection Hall as _ <-.
  - simpl in Hall. by rewrite Hstep, Hrun in Hall.
Qed.

Lemma steer_run_cons_snd a s f l :
  (steer_run a s (f :: l)).2 = (steer_run a (steer_step a s f).2 l).2.
Proof.
  cbn [steer_run]. destruct (steer_step a s f) as [o1 s1]. cbn [fst snd].
  by destruct (steer_run a s1 l).
Qed.

(** One step of the arbiter, put in front of a log. *)
Lemma sys_step_joined a s0 t acts s1 s log :
  sys_step a s0 t = Go acts s1 ->
  loops_joined a s1 s log -> (forall c, port_joined a s1 s log c) ->
  loops_joined a s0 s (acts ++ log) /\
  (forall c, port_joined a s0 s (acts ++ log) c).
Proof.
  destruct t as [c f|c|c|c|c|f|]; cbn [sys_step].
  - intros Hgo. by eapply (manage_joined _ _ _ _ _ []).
  - intros Hgo. by eapply (manage_joined _ _ _ _ _ []).
  - destruct (taggedResponse s0 c) as [|f rest] eqn:Hresp; [done|].
    intros Hgo. by eapply (manage_joined _ _ _ _ _ [f]).
  - intros Hgo. by eapply (manage_joined _ _ _ _ _ []).
  - destruct (arbitration s0) as [|k] eqn:Hpc.
    + destruct (transferReq s0 c) as [|k rest] eqn:Hq; [done|].
      destruct (arbitrate_step a ReqSelect (Ready c k)) as [[o pc]|] eqn:Harb;
        [|done].
      intros [= <- <-] [Hrun Hsteer] Hports. split.
      * split; [|exact Hsteer]. read_log. rewrite Hpc.
        by eapply arbitrate_run_step.
      * intros c'. specialize (Hports c'). unfold port_joined, held_for in *.
        read_log.
        cbn [managers transferReq taggedRequest taggedResponse steering held
             arbitration] in *.
        destruct (decide (c = c')) as [<-|Hne].
        -- rewrite put_eq in Hports. rewrite Hq.
           destruct Hports as (H1 & H2 & H3 & H4 & H5).
           split_and!; try done. cbn [app]. by f_equal.
        -- by rewrite put_ne in Hports by done.
    + destruct (taggedRequest s0 c) as [|f rest] eqn:Hq; [done|].
      destruct (arbitrate_step a (ReqCopy k) (Deliver c f)) as [[o pc]|] eqn:Harb;
        [|done].
      intros [= <- <-] [Hrun Hsteer] Hports. split.
      * split; [|exact Hsteer]. read_log. rewrite Hpc.
        by eapply arbitrate_run_step.
      * intros c'. specialize (Hports c'). unfold port_joined, held_for in *.
        read_log. cbn [fst snd].
        cbn [managers transferReq taggedRequest taggedResponse steering held
             arbitration] in *.
        destruct (decide (c = c')) as [<-|Hne].
        -- rewrite put_eq in Hports. rewrite Hq.
           destruct Hports as (H1 & H2 & H3 & H4 & H5).
           split_and!; try done. cbn [app]. by f_equal.
        -- by rewrite put_ne in Hports by done.
  - destruct (held s0) as [|] eqn:Hheld; [done|].
    intros Hgo [Hrun Hsteer] Hports. injection Hgo as <- <-. split.
    + split; [exact Hrun|]. read_log. by rewrite steer_run_cons_snd.
    + intros c'. specialize (Hports c'). unfold port_joined, held_for in *.
      read_log. rewrite steer_run_cons.
      cbn [managers transferReq taggedRequest taggedResponse steering held
           arbitration] in *.
      rewrite Hheld.
      destruct Hports as (H1 & H2 & H3 & H4 & H5).
      split_and!; try done. rewrite <-H5. cbn [app].
      unfold delivered at 1. rewrite filter_app, fmap_app. f_equal.
      unfold steer_step. cbn [fst snd].
      destruct (responseTarget a _) as [c0|]; [|done].
      cbn [head]. rewrite filter_cons. cbn [fst].
      by case_decide.
  - destruct (held s0) as [[c f]|] eqn:Hheld; [|done].
    destruct (length (taggedResponse s0 c) <? linkCap); [|done].
    intros [= <- <-] [Hrun Hsteer] Hports. split; [by split|].
    intros c'. specialize (Hports c'). unfold port_joined, held_for in *.
    read_log.
    cbn [managers transferReq taggedRequest taggedResponse steering held
         arbitration] in *.
    rewrite Hheld.
    destruct Hports as (H1 & H2 & H3 & H4 & H5).
    destruct (decide (c = c')) as [<-|Hne].
    + rewrite put_eq in H4. split_and!; try done.
      * rewrite <-H4, <-app_assoc. done.
      * cbn [app] in *. by f_equal.
    + rewrite put_ne in H4 by done. by split_and!.
Qed.

(** A run of the arbiter is a run of each of its goroutines, joined by
    the channels between them. *)
Lemma sys_run_joined a ts s0 log e :
  sys_run a s0 ts = (log, e) ->
  exists s, (forall s', e = Working s' -> s' = s) /\
            (e = Crashed -> exists t, sys_step a s t = Fault) /\
            loops_joined a s0 s log /\ (forall c, port_joined a s0 s log c).
Proof.
  revert s0 log e. induction ts as [|t ts IH]; intros s0 log e; simpl.
  - intros [= <- <-]. exists s0. split; [by intros ? [= <-]|].
    split; [done|]. split; [by split|]. intros c. unfold port_joined, held_for.
    simpl. rewrite !app_nil_r. by split_and!.
  - destruct (sys_step a s0 t) as [acts s1| |] eqn:Hstep.
    + destruct (sys_run a s1 ts) as [log' e'] eqn:Hrun. intros [= <- <-].
      destruct (IH _ _ _ Hrun) as (s & He & Hc & Hloops & Hports).
      exists s. split; [done|]. split; [done|]. by eapply sys_step_joined.
    + intros [= <- <-]. exists s0. split; [done|]. split; [done|].
      split; [by split|]. intros c. unfold port_joined, held_for. simpl.
      rewrite !app_nil_r. by split_and!.
    + intros [= <- <-]. exists s0. split; [done|]. split; [by exists t|].
      split; [by split|]. intros c. unfold port_joined, held_for. simpl.
      rewrite !app_nil_r. by split_and!.
Qed.

(** The log takes up the flits handed over, in order, up to the turn
    that could not be taken. *)
Lemma step_upstream_requests p s m evs s' :
  step p s m = Next evs s' ->
  upstream_requests evs = match m with ReqRecv f => [f] | _ => [] end.
Proof.
  destruct s as [lower upper fifo rq rs].
  destruct m as [|f| |f]; simpl; unfold request_step, response_step; simpl.
  - destruct rq as [|h|h t|h t|h|h| |b]; try done;
      repeat case_match; try done; by intros [= <- <-].
  - destruct rq as [|h|h t|h t|h|h| |b]; try done; by intros [= <- <-].
  - destruct rs as [|h t|h t|h t|h| |b]; try done;
      repeat case_match; try done; by intros [= <- <-].
  - destruct rs as [|h t|h t|h t|h| |b]; try done; by intros [= <- <-].
Qed.

Lemma run_received p ms s :
  upstream_requests (run p s ms).1 `prefix_of` received ms.
Proof.
  revert s. induction ms as [|m ms IH]; intros s; [by exists []|].
  destruct (step p s m) as [evs s1| |] eqn:Hstep.
  - rewrite (run_Next _ _ _ _ _ _ Hstep). cbn [fst].
    unfold upstream_requests. rewrite omap_app.
    fold (upstream_requests evs). rewrite (step_upstream_requests _ _ _ _ _ Hstep).
    fold (upstream_requests (run p s1 ms).1).
    destruct m as [|f| |f]; cbn [received omap app]; try apply IH.
    apply prefix_cons, IH.
  - simpl. rewrite Hstep. apply prefix_nil.
  - simpl. rewrite Hstep. apply prefix_nil.
Qed.

Lemma sys_run_fed a ts s0 :
  exists rest,
    downstream_fed ts = steer_inputs (sys_run a s0 ts).1 ++ rest /\
    (forall s, (sys_run a s0 ts).2 = Working s -> rest = []).
Proof.
  revert s0. induction ts as [|t ts IH]; intros s0; [by exists []|].
  cbn [sys_run]. destruct (sys_step a s0 t) as [acts s1| |] eqn:Hstep.
  - destruct (IH s1) as (rest & Heq & Hrest). exists rest.
    destruct (sys_run a s1 ts) as [log e]. cbn [fst snd] in *.
    split; [|done]. unfold steer_inputs. rewrite omap_app.
    fold (steer_inputs log). rewrite <-app_assoc, <-Heq.
    destruct t as [c f|c|c|c|c|f|]; cbn [sys_step] in Hstep.
    + by apply manage_Go in Hstep as (_ & -> & _).
    + by apply manage_Go in Hstep as (_ & -> & _).
    + destruct (taggedResponse s0 c); [done|].
      by apply manage_Go in Hstep as (_ & -> & _).
    + by apply manage_Go in Hstep as (_ & -> & _).
    + repeat case_match; try done; by injection Hstep as <- _.
    + repeat case_match; try done; by injection Hstep as <- _.
    + repeat case_match; try done; by injection Hstep as <- _.
  - by eexists.
  - by eexists.
Qed.

Lemma upstream_fed_cons c t ts :
  upstream_fed c (t :: ts)
  = match t with
    | Upstream c' f =>
        if decide (c' = c) then f :: upstream_fed c ts else upstream_fed c ts
    | _ => upstream_fed c ts
    end.
Proof. destruct t; try done. unfold upstream_fed. simpl. by case_decide. Qed.

Lemma sys_run_received a c ts s0 :
  received (manager_moves c (sys_run a s0 ts).1) `prefix_of` upstream_fed c ts.
Proof.
  revert s0. induction ts as [|t ts IH]; intros s0; [by exists []|].
  cbn [sys_run]. destruct (sys_step a s0 t) as [acts s1| |] eqn:Hstep;
    [|apply prefix_nil..].
  specialize (IH s1). destruct (sys_run a s1 ts) as [log e]. cbn [fst] in *.
  rewrite upstream_fed_cons.
  destruct t as [c' f|c'|c'|c'|c'|f|]; cbn [sys_step] in Hstep.
  - apply manage_Go in Hstep as (_ & -> & _). read_log.
    destruct (decide (c' = c)); [by apply prefix_cons|done].
  - apply manage_Go in Hstep as (_ & -> & _). read_log.
    by destruct (decide (c' = c)).
  - destruct (taggedResponse s0 c'); [done|].
    apply manage_Go in Hstep as (_ & -> & _). read_log.
    by destruct (decide (c' = c)).
  - apply manage_Go in Hstep as (_ & -> & _). read_log.
    by destruct (decide (c' = c)).
  - repeat case_match; try done; by injection Hstep as <- _.
  - repeat case_match; try done; by injection Hstep as <- _.
  - repeat case_match; try done; by injection Hstep as <- _.
Qed.

(** *** Streams and their prefixes *)

Lemma frame_heads_app b l1 l2 :
  frame_heads b (l1 ++ l2) = frame_heads b l1 ++ frame_heads (end_flag b l1) l2.
Proof.
  revert b. induction l1 as [|f l1 IH]; intros b; [done|].
  cbn [app frame_heads end_flag]. by rewrite IH, app_assoc.
Qed.

Lemma blank_heads_app b l1 l2 :
  blank_heads b (l1 ++ l2) = blank_heads b l1 ++ blank_heads (end_flag b l1) l2.
Proof.
  revert b. induction l1 as [|f l1 IH]; intros b; [done|].
  cbn [app blank_heads end_flag]. by rewrite IH.
Qed.

Lemma blank_heads_prefix b l1 l2 :
  l1 `prefix_of` l2 -> blank_heads b l1 `prefix_of` blank_heads b l2.
Proof. intros [k ->]. rewrite blank_heads_app. by eexists. Qed.

Lemma frame_heads_prefix (P : Flit64 -> Prop) b l1 l2 :
  l1 `prefix_of` l2 -> Forall P (frame_heads b l2) -> Forall P (frame_heads b l1).
Proof. intros [k ->]. rewrite frame_heads_app. by intros [? _]%Forall_app. Qed.

Lemma blank_heads_length b l : length (blank_heads b l) = length l.
Proof. revert b. induction l as [|f l IH]; intros b; simpl; by rewrite ?IH. Qed.

Lemma steer_run_prefix a c s l1 l2 :
  l1 `prefix_of` l2 ->
  delivered c (steer_run a s l1).1 `prefix_of` delivered c (steer_run a s l2).1.
Proof.
  intros [k ->]. rewrite steer_run_app. cbn [fst]. rewrite delivered_app.
  by eexists.
Qed.

(** The frames the steering loop writes to a port begin with headers it
    read as headers. *)
Lemma steer_run_heads (P : Flit64 -> Prop) a c s l :
  Forall P (frame_heads (isHeaderFlit s) l) ->
  Forall P (frame_heads (steer_header a c s) (delivered c (steer_run a s l).1)).
Proof.
  revert s. induction l as [|f l IH]; intros s; [done|].
  rewrite steer_run_cons, delivered_app. cbn [frame_heads].
  intros [Hf Hl]%Forall_app. specialize (IH (steer_step a s f).2).
  unfold steer_step, steer_header in *. cbn [fst snd isHeaderFlit portId] in *.
  specialize (IH Hl). destruct s as [k b]. cbn [isHeaderFlit portId] in *.
  destruct (responseTarget a (if b then Data f !!! 2%fin else k))
    as [c0|] eqn:Hgo.
  - destruct (decide (c0 = c)) as [->|Hne].
    + rewrite bool_decide_eq_true_2 in IH by done.
      rewrite orb_false_r in IH.
      unfold delivered at 1. rewrite filter_cons_True by done.
      cbn [fmap list_fmap app frame_heads snd]. apply Forall_app. split; [|done].
      destruct b; [done|]. by rewrite bool_decide_eq_true_2.
    + rewrite bool_decide_eq_false_2 in IH by congruence.
      rewrite orb_true_r in IH.
      unfold delivered at 1. rewrite filter_cons_False by done.
      cbn [fmap list_fmap app filter]. 
      destruct b; [done|]. rewrite Hgo, bool_decide_eq_false_2 by congruence.
      done.
  - rewrite bool_decide_eq_false_2 in IH by done. rewrite orb_true_r in IH.
    cbn [app]. destruct b; [done|]. by rewrite Hgo.
Qed.

Lemma run_indexable_state p ms s tr s' :
  indexable s -> run p s ms = (tr, Running s') ->
  Forall (fun h => tag_in_range h = true)
         (frame_heads (resp_header_next (respFlow s)) (tagged_responses tr)) ->
  indexable s'.
Proof.
  revert s tr. induction ms as [|m ms IH]; intros s tr Hs; simpl.
  - by intros [= <- <-].
  - destruct (step p s m) as [evs s1| |] eqn:Hstep; [|done..].
    destruct (run p s1 ms) as [tr' e'] eqn:Hrun. intros [= <- ->].
    rewrite tagged_responses_app.
    destruct m as [|f| |f]; simpl in Hstep.
    + destruct (request_step_indexable _ _ _ _ _ Hs Hstep) as (Hs1 & -> & <-).
      by apply IH.
    + destruct (request_step_indexable _ _ _ _ _ Hs Hstep) as (Hs1 & -> & <-).
      by apply IH.
    + rewrite (response_step_heads _ _ _ _ _ Hstep).
      intros [Hnow Hall]%Forall_app.
      eauto using response_step_indexable.
    + rewrite (response_step_heads _ _ _ _ _ Hstep).
      intros [Hnow Hall]%Forall_app.
      eauto using response_step_indexable.
Qed.

Lemma manage_Fault a s c m resp :
  manage a s c m resp = Fault -> step (port_id c) (managers s c) m = Panic.
Proof.
  unfold manage. destruct (decide (c ∈ ports a)); [|done].
  destruct (step (port_id c) (managers s c) m); try done. by case_match.
Qed.

Lemma sys_step_Fault a s t :
  sys_step a s t = Fault ->
  exists c m, step (port_id c) (managers s c) m = Panic.
Proof.
  destruct t as [c f|c|c|c|c|f|]; cbn [sys_step];
    try (intros ?%manage_Fault; by eauto).
  - destruct (taggedResponse s c); [done|]. intros ?%manage_Fault; by eauto.
  - by repeat case_match.
  - by repeat case_match.
  - by repeat case_match.
Qed.

(** What the response flow of port [c] has received is the beginning
    of what the steering loop makes of the flits handed over for
    [downstreamResponse]. *)
Lemma sys_run_responses a ts c log e :
  sys_run a boot ts = (log, e) ->
  tagged_responses (manager_trace c log)
    `prefix_of` delivered c (steer_run a steer_start (downstream_fed ts)).1.
Proof.
  intros Hrun.
  destruct (sys_run_fed a ts boot) as (rest & Hfed & _).
  rewrite Hrun in Hfed. cbn [fst] in Hfed.
  destruct (sys_run_joined _ _ _ _ _ Hrun) as (s & _ & _ & _ & Hports).
  destruct (Hports c) as (_ & _ & _ & H4 & H5).
  cbn [boot taggedResponse steering app] in H4, H5.
  unfold held_for in H5 at 1. cbn [boot held app] in H5.
  unfold manager_trace.
  etrans; [|apply steer_run_prefix; exists rest; exact Hfed].
  rewrite H5, H4, <-app_assoc. by eexists.
Qed.

Lemma arbitrate_run_selections a ms pc r :
  arbitrate_run a pc ms = Some r ->
  Forall (fun x => x.1 ∈ ports a) (selections ms).
Proof.
  revert pc r. induction ms as [|m ms IH]; intros pc r; simpl; [constructor|].
  destruct (arbitrate_step a pc m) as [[o1 pc1]|] eqn:Hstep; [|done].
  destruct (arbitrate_run a pc1 ms) as [[o2 pc2]|] eqn:Hrun; [|done].
  intros _. specialize (IH _ _ Hrun).
  destruct pc as [|k], m as [c k'|c f]; simpl in Hstep; try done.
  destruct (decide (c ∈ ports a)); [|done]. by constructor.
Qed.

Lemma selections_selected c k ms : (c, k) ∈ selections ms -> k ∈ selected c ms.
Proof.
  induction ms as [|m ms IH]; [by intros ?%elem_of_nil|].
  rewrite selected_cons. destruct m as [c' k'|c' f]; simpl; [|done].
  intros [[= <- <-]|Hin]%elem_of_cons.
  - rewrite decide_True by done. apply list_elem_of_here.
  - destruct (decide (c' = c)); [apply list_elem_of_further|]; by apply IH.
Qed.

(** X13: in an arbiter as wired, the port id the arbitration goroutine
    receives in its [select] is the id of the port whose transfer request
    channel it came from, so the [switch] that follows reads the tagged
    request channel of that same port: the [default:] branch is reached
    with the id of the last port only. *)
Theorem selection_names_its_port (a : arbiter) (ts : list turn) :
  a ∈ arbiters ->
  Forall (fun x => x.1 ∈ ports a /\ x.2 = port_id x.1 /\ requestSource a x.2 = x.1)
         (selections (arbiter_moves (sys_log a ts))).
Proof.
  intros Ha. unfold sys_log. destruct (sys_run a boot ts) as [log e] eqn:Hrun.
  cbn [fst].
  destruct (sys_run_joined _ _ _ _ _ Hrun) as (s & _ & _ & [Harb _] & Hports).
  cbn [boot arbitration] in Harb.
  pose proof (arbitrate_run_selections _ _ _ _ Harb) as Hsel.
  rewrite Forall_forall in Hsel. apply Forall_forall. intros [c k] Hin.
  pose proof (Hsel _ Hin) as Hc. cbn [fst snd] in *.
  assert (k = port_id c) as ->.
  { destruct (Hports c) as (_ & H2 & _). cbn [boot transferReq managers app] in H2.
    destruct (run (port_id c) start (manager_moves c log)) as [tr e'] eqn:Hm.
    destruct (run_counts _ _ _ _ _ Hm) as (? & ? & ? & _ & _ & _ & Hall & _).
    cbn [fst] in H2. rewrite H2, Forall_forall in Hall. apply Hall.
    apply elem_of_app. left. by apply selections_selected. }
  split_and!; [done..|]. by apply (wired_arbiters a Ha).
Qed.

Lemma selection_names_its_port_witness :
  ArbitrateX2 ∈ arbiters /\
  length (selections (arbiter_moves (sys_log ArbitrateX2 Sample3.back_to_back))) = 2 /\
  Forall (fun x => x.1 ∈ ports ArbitrateX2 /\ x.2 = port_id x.1 /\
                   requestSource ArbitrateX2 x.2 = x.1)
         (selections (arbiter_moves (sys_log ArbitrateX2 Sample3.back_to_back))).
Proof.
  split; [repeat constructor|]. split; [vm_compute; reflexivity|].
  apply (selection_names_its_port ArbitrateX2 Sample3.back_to_back).
  repeat constructor.
Defined.

(** X14: the request path through an arbiter.  Whatever the schedule and
    the flits handed over, the frames written to [downstreamRequest] are
    not interleaved and come from ports of the arbiter, and those that come
    from port [c] are, in order, the flits its manager received from
    upstream with each frame header carrying the id of [c] at offset 2 and
    a tag at offset 3: nothing is lost, doubled or reordered on the way.
    The stream is complete when the request flow waits for a flit and the
    tagged request channel is empty. *)
Theorem requests_reach_downstream (a : arbiter) (ts : list turn) (c : port) :
  a ∈ arbiters ->
  frames_atomic None (downstream_requests (sys_log a ts)) = true /\
  Forall (fun x => x.1 ∈ ports a) (downstream_requests (sys_log a ts)) /\
  delivered c (downstream_requests (sys_log a ts))
    `prefix_of` tagged_stream (port_id c) true
                  (leases (manager_trace c (sys_log a ts)))
                  (upstream_in c (sys_log a ts)) /\
  upstream_in c (sys_log a ts) `prefix_of` upstream_fed c ts /\
  (forall s, sys_final a ts = Working s -> taggedRequest s c = [] ->
     reqFlow (managers s c) = RqRecvHeader \/ reqFlow (managers s c) = RqRecvBody ->
     delivered c (downstream_requests (sys_log a ts))
     = tagged_stream (port_id c) true
         (leases (manager_trace c (sys_log a ts))) (upstream_in c (sys_log a ts))).
Proof.
  intros Ha. pose proof (sys_run_received a c ts boot) as Hfed.
  unfold sys_log, sys_final, downstream_requests, upstream_in, manager_trace in *.
  destruct (sys_run a boot ts) as [log e] eqn:Hrun. cbn [fst snd] in *.
  destruct (sys_run_joined _ _ _ _ _ Hrun) as (s & He & _ & [Harb _] & Hports).
  cbn [boot arbitration] in Harb.
  destruct (Hports c) as (H1 & _ & H3 & _). cbn [boot taggedRequest managers app] in *.
  destruct (run (port_id c) start (manager_moves c log)) as [tr e'] eqn:Hm.
  cbn [fst snd] in *.
  destruct (run_expect _ _ _ _ _ Hm) as (rest & Heq & Hrest).
  cbn [start reqFlow expect] in Heq.
  split_and!.
  - by eapply (arbitrate_run_atomic a _ ReqSelect None).
  - by eapply arbitrate_run_sources.
  - rewrite Heq, H3, <-app_assoc. by eexists.
  - etrans; [|exact Hfed]. pose proof (run_received (port_id c) (manager_moves c log) start) as Hr.
    by rewrite Hm in Hr.
  - intros s' ->%He Hq Hpc. rewrite Heq, H3, Hq, app_nil_r.
    rewrite (Hrest _ H1). destruct Hpc as [-> | ->]; simpl; by rewrite app_nil_r.
Qed.

Lemma requests_reach_downstream_witness :
  ArbitrateX2 ∈ arbiters /\
  delivered PortB (downstream_requests (sys_log ArbitrateX2 Sample3.back_to_back))
    = [Sample.flit 2 0 2 0 8] /\
  delivered PortB (downstream_requests (sys_log ArbitrateX2 Sample3.back_to_back))
    `prefix_of` tagged_stream (port_id PortB) true
                  (leases (manager_trace PortB (sys_log ArbitrateX2 Sample3.back_to_back)))
                  (upstream_in PortB (sys_log ArbitrateX2 Sample3.back_to_back)).
Proof.
  split; [repeat constructor|]. split; [vm_compute; reflexivity|].
  destruct (requests_reach_downstream ArbitrateX2 Sample3.back_to_back PortB)
    as (_ & _ & Hpre & _); [repeat constructor|exact Hpre].
Defined.

(** X15: the response path through an arbiter.  Whatever the schedule,
    the flits written to the upstream response channel of port [c] are,
    bytes 2 and 3 of the frame headers apart, the beginning of what the
    steering loop makes of the flits handed over for [downstreamResponse];
    when these are whole frames, that is the frames whose header carries
    the id of [c], in order, and nothing for a port the arbiter does not
    have. *)
Theorem responses_reach_their_port (a : arbiter) (ts : list turn) (c : port) :
  a ∈ arbiters ->
  blank_heads true (upstream_out c (sys_log a ts))
    `prefix_of` blank_heads true
                  (delivered c (steer_run a steer_start (downstream_fed ts)).1) /\
  (forall frames,
     forallb is_frame frames = true -> downstream_fed ts = concat frames ->
     blank_heads true (upstream_out c (sys_log a ts))
       `prefix_of` blank_heads true
                     (if bool_decide (c ∈ ports a)
                      then concat (filter (fun fr => header_port fr = port_id c) frames)
                      else [])).
Proof.
  intros Ha%wired_arbiters.
  assert (blank_heads true (upstream_out c (sys_log a ts))
            `prefix_of` blank_heads true
              (delivered c (steer_run a steer_start (downstream_fed ts)).1)) as Hall.
  { unfold sys_log, upstream_out.
    destruct (sys_run a boot ts) as [log e] eqn:Hrun. cbn [fst].
    pose proof (sys_run_responses a ts c log e Hrun) as Hin.
    unfold manager_trace in *.
    destruct (run (port_id c) start (manager_moves c log)) as [tr e'] eqn:Hm.
    cbn [fst] in *.
    destruct (run_blank _ _ _ _ _ Hm) as (rest & Heq & _).
    cbn [start respFlow resp_expect resp_out_header] in Heq.
    etrans; [|by apply blank_heads_prefix]. rewrite Heq. by eexists. }
  split; [done|]. intros frames Hfrs Hfed. rewrite Hfed in Hall.
  destruct (steer_run_frames a frames steer_start Hfrs eq_refl) as [Hout _].
  by rewrite Hout, delivered_frames in Hall.
Qed.

Lemma responses_reach_their_port_witness :
  ArbitrateX2 ∈ arbiters /\
  upstream_out PortA (sys_log ArbitrateX2 Sample3.back_to_back)
    = [Sample.flit 254 0 170 171 8] /\
  blank_heads true (upstream_out PortA (sys_log ArbitrateX2 Sample3.back_to_back))
    `prefix_of` blank_heads true
       (delivered PortA
          (steer_run ArbitrateX2 steer_start
             (downstream_fed Sample3.back_to_back)).1).
Proof.
  split; [repeat constructor|]. split; [vm_compute; reflexivity|].
  apply (responses_reach_their_port ArbitrateX2 Sample3.back_to_back PortA).
  repeat constructor.
Defined.

(** X16: an arbiter as a whole stays up as long as the frames handed
    over for [downstreamResponse] carry a tag below 4 in byte 3 of their
    header: no port manager indexes its tag tables out of range, under any
    schedule and whatever comes from upstream. *)
Theorem arbiter_safe_in_range (a : arbiter) (ts : list turn) :
  forallb tag_in_range (frame_heads true (downstream_fed ts)) = true ->
  sys_final a ts <> Crashed.
Proof.
  intros Hall Hend. unfold sys_final in Hend.
  destruct (sys_run a boot ts) as [log e] eqn:Hrun. cbn [snd] in Hend. subst e.
  destruct (sys_run_joined _ _ _ _ _ Hrun) as (s & _ & Hc & _ & Hports).
  destruct (Hc eq_refl) as (t & (c & m & Hpanic)%sys_step_Fault).
  pose proof (sys_run_responses a ts c log Crashed Hrun) as Hin.
  destruct (Hports c) as (H1 & _). cbn [boot managers] in H1.
  unfold manager_trace in Hin.
  destruct (run (port_id c) start (manager_moves c log)) as [tr e'] eqn:Hm.
  cbn [fst snd] in *. subst e'.
  apply (indexable_safe (port_id c) (managers s c) m); [|done].
  eapply run_indexable_state; [apply indexable_start|done|].
  cbn [start respFlow resp_header_next].
  eapply frame_heads_prefix; [done|].
  apply (steer_run_heads _ a c steer_start).
  cbn [steer_start isHeaderFlit]. apply Forall_forall. intros h Hh.
  rewrite forallb_forall in Hall. apply Hall. by apply list_elem_of_In.
Qed.

Lemma arbiter_safe_in_range_witness :
  forallb tag_in_range (frame_heads true (downstream_fed Sample3.back_to_back)) = true /\
  sys_final ArbitrateX2 Sample3.back_to_back <> Crashed.
Proof.
  split; [vm_compute; reflexivity|].
  apply (arbiter_safe_in_range ArbitrateX2 Sample3.back_to_back).
  vm_compute. reflexivity.
Defined.

(** A response frame for port 1 with tag byte 4 takes [ArbitrateX2] down. *)
Example poisoned_response_crashes :
  sys_final ArbitrateX2 Sample3.poisoned = Crashed.
Proof. vm_compute. reflexivity. Qed.
